(** * messageResource.js: loading and looking up message resources

    A shallow embedding of [src/main/resources/static/js/messageResource.js]
    and the properties of its parser, store, load coordinator and lookup.

    Conventions of the embedding.
    - A JavaScript string is the list of its UTF-16 code units ([jstring]).
    - A JavaScript value that the code inspects with [!v], [typeof] or
      ['' + v] is a [jsval]; numbers are the integers (HTTP status codes).
    - The objects [properties], [properties[locale]] and
      [properties[locale][module]] are finite maps from strings: the own
      properties of the objects. What an object inherits from
      [Object.prototype] is not in the maps: the properties that read a
      module, a locale or a key by name are stated for names that are
      not in [proto_names].
    - Module names and keys have their documented type, String.
    - [console.log], [alert], a call of the fetch function and a call of
      the caller's callback are recorded as events. *)

From Stdlib Require Import ZArith NArith String Ascii DecimalPos.
From stdpp Require Import gmap list.

Local Open Scope N_scope.

(** ** Strings and values *)

Abbreviation jstring := (list N).

(** The code units of a literal written in ASCII. *)
Definition js (s : string) : jstring := N_of_ascii <$> list_ascii_of_string s.

Inductive jsval :=
  | JUndefined
  | JNull
  | JBool (b : bool)
  | JNum (n : Z)
  | JStr (s : jstring).

Definition is_empty (s : jstring) : bool :=
  match s with [] => true | _ => false end.

(** [!!v] *)
Definition truthy (v : jsval) : bool :=
  match v with
  | JUndefined | JNull => false
  | JBool b => b
  | JNum n => negb (n =? 0)%Z
  | JStr s => negb (is_empty s)
  end.

(** [typeof v === 'string'] *)
Definition is_string (v : jsval) : bool :=
  match v with JStr _ => true | _ => false end.

Fixpoint digits_of_uint (u : Decimal.uint) : jstring :=
  match u with
  | Decimal.Nil => []
  | Decimal.D0 u => 48 :: digits_of_uint u
  | Decimal.D1 u => 49 :: digits_of_uint u
  | Decimal.D2 u => 50 :: digits_of_uint u
  | Decimal.D3 u => 51 :: digits_of_uint u
  | Decimal.D4 u => 52 :: digits_of_uint u
  | Decimal.D5 u => 53 :: digits_of_uint u
  | Decimal.D6 u => 54 :: digits_of_uint u
  | Decimal.D7 u => 55 :: digits_of_uint u
  | Decimal.D8 u => 56 :: digits_of_uint u
  | Decimal.D9 u => 57 :: digits_of_uint u
  end.

(** The decimal text of an integer, which is its JavaScript text as long
    as it has at most 21 digits. *)
Definition number_to_string (n : Z) : jstring :=
  match n with
  | Z0 => [48]
  | Zpos p => digits_of_uint (Pos.to_uint p)
  | Zneg p => 45 :: digits_of_uint (Pos.to_uint p)
  end.

(** ['' + v] *)
Definition to_string (v : jsval) : jstring :=
  match v with
  | JUndefined => js "undefined"
  | JNull => js "null"
  | JBool true => js "true"
  | JBool false => js "false"
  | JNum n => number_to_string n
  | JStr s => s
  end.

(** White space and line terminators, as [String.prototype.trim] (and [\s]
    of the fallback at the end of the file) strip them. *)
Definition is_white_space (c : N) : bool :=
  (9 <=? c) && (c <=? 13) || (c =? 32) || (c =? 160) || (c =? 5760)
  || (8192 <=? c) && (c <=? 8202) || (c =? 8232) || (c =? 8233)
  || (c =? 8239) || (c =? 8287) || (c =? 12288) || (c =? 65279).

(** Line terminators: the characters [.] of a regular expression refuses. *)
Definition is_line_terminator (c : N) : bool :=
  (c =? 10) || (c =? 13) || (c =? 8232) || (c =? 8233).

Fixpoint drop_white (s : jstring) : jstring :=
  match s with
  | c :: s' => if is_white_space c then drop_white s' else s
  | [] => []
  end.

(** [s.trim()] *)
Definition trim (s : jstring) : jstring :=
  reverse (drop_white (reverse (drop_white s))).

(** [s.split(sep)] for a one-character separator. *)
Fixpoint split (sep : N) (s : jstring) : list jstring :=
  match s with
  | [] => [[]]
  | c :: s' =>
      if c =? sep then [] :: split sep s'
      else match split sep s' with
           | l :: ls => (c :: l) :: ls
           | [] => [[c]]
           end
  end.

(** [s.replace(a, b)] for one-character strings: the first occurrence only. *)
Fixpoint replace_first (a b : N) (s : jstring) : jstring :=
  match s with
  | [] => []
  | c :: s' => if c =? a then b :: s' else c :: replace_first a b s'
  end.

(** [s.indexOf(a) !== -1] *)
Definition contains (a : N) (s : jstring) : bool := existsb (N.eqb a) s.

(** ** The pattern of [saveFile]

    The pattern is: group 1, a starred class of every character but the
    equals sign; an equals sign; group 2, a starred dot; the end of input.
    [String.prototype.match] tries every start position from the left; at
    each, a starred class first takes as much as it can and gives back one
    character at a time. [star p s] lists the ways to split [s] after a
    run of characters satisfying [p], the longest run first. *)

Fixpoint star (p : N -> bool) (s : jstring) : list (jstring * jstring) :=
  match s with
  | c :: s' =>
      if p c then ((λ ar, (c :: ar.1, ar.2)) <$> star p s') ++ [([], s)]
      else [([], s)]
  | [] => [([], [])]
  end.

Fixpoint first_some {A B} (f : A -> option B) (l : list A) : option B :=
  match l with
  | [] => None
  | a :: l' => match f a with Some b => Some b | None => first_some f l' end
  end.

Definition not_equals_sign (c : N) : bool := negb (c =? 61).
Definition dot (c : N) : bool := negb (is_line_terminator c).

(** Group 2 and the end of input, on what follows the equals sign. *)
Definition match_value (s : jstring) : option jstring :=
  first_some (λ vr, if is_empty vr.2 then Some vr.1 else None) (star dot s).

(** The whole pattern anchored at the start of [s]: the two groups. *)
Definition match_here (s : jstring) : option (jstring * jstring) :=
  first_some
    (λ kr, match kr.2 with
           | c :: r => if c =? 61
                       then (λ v, (kr.1, v)) <$> match_value r
                       else None
           | [] => None
           end)
    (star not_equals_sign s).

(** [line.match(pattern)]: groups 1 and 2 of the leftmost match. *)
Fixpoint match_key_value (s : jstring) : option (jstring * jstring) :=
  match match_here s with
  | Some r => Some r
  | None => match s with
            | [] => None
            | _ :: s' => match_key_value s'
            end
  end.

(** ** Unicode escapes

    [convertUnicodeString]: every backslash, [u] and four hexadecimal digits
    become the character with that code; the scan goes on after the six
    characters, so what a replacement produces is not scanned again. *)

Definition hex_digit (c : N) : option N :=
  if (48 <=? c) && (c <=? 57) then Some (c - 48)
  else if (65 <=? c) && (c <=? 70) then Some (c - 55)
  else if (97 <=? c) && (c <=? 102) then Some (c - 87)
  else None.

(** [String.fromCharCode(parseInt(digits, 16))] for four digits, when they
    are hexadecimal digits. *)
Definition hex4 (a b c d : N) : option N :=
  match hex_digit a, hex_digit b, hex_digit c, hex_digit d with
  | Some x, Some y, Some z, Some w => Some (((x * 16 + y) * 16 + z) * 16 + w)
  | _, _, _, _ => None
  end.

Fixpoint convertUnicodeString (str : jstring) : jstring :=
  match str with
  | [] => []
  | c :: rest =>
      match rest with
      | u :: a :: b :: c' :: d :: rest' =>
          if (c =? 92) && (u =? 117) then
            match hex4 a b c' d with
            | Some code => code :: convertUnicodeString rest'
            | None => c :: convertUnicodeString rest
            end
          else c :: convertUnicodeString rest
      | _ => c :: convertUnicodeString rest
      end
  end.

(** ** The module state *)

Inductive resolver :=
  | DefaultFileNameResolver
  | CustomResolver (f : jstring -> jsval -> jstring).

Inductive ajax :=
  | AjaxGet
  | CustomAjax (id : nat).

(** What the outside can observe. [EFetch a url lid idx] is the call of
    the fetch function [a] by load call number [lid] for the module at
    index [idx] of its [modulesToLoad]. [ECallback site cb args] is a call
    of the caller's callback [cb]: [site] is [None] at the call of line 293
    and [Some lid] at the call of line 310 in the completion function of
    load call [lid]. [ETypeError] is a call of an unassigned variable. *)
Inductive event :=
  | EConsoleLog (msg : jstring)
  | EAlert (msg : jstring)
  | EFetch (a : ajax) (url : jstring) (lid idx : nat)
  | ECallback (site : option nat) (cb : nat) (args : list jsval)
  | ETypeError.

(** The variables one call of [load] closes over for its completion
    functions: [modulesToLoad], [validLocale], [callback] and the counter
    [filesLoadedCount]. *)
Record load_closure := {
  modulesToLoad : list jstring;
  validLocale : jstring;
  callback : option nat;
  filesLoadedCount : nat
}.

Abbreviation module_map := (gmap (list N) (list N)).
Abbreviation locale_map := (gmap (list N) (gmap (list N) (list N))).
Abbreviation store := (gmap (list N) (gmap (list N) (gmap (list N) (list N)))).

Record state := {
  properties : option store;
  filePath : jsval;
  fileExtension : jsval;
  defaultLocale : jstring;
  currentLocale : jstring;
  fileNameResolver : option resolver;
  ajaxFunction : option ajax;
  validConfiguration : bool;
  debugMode : bool;
  loads : list load_closure
}.

Definition DEFAULT_MODULE_NAME : jstring := js "_default".
Definition DEFAULT_EXTENSION : jstring := js ".properties".

(** The variables as the module declares them. *)
Definition initial : state := {|
  properties := None;
  filePath := JUndefined;
  fileExtension := JUndefined;
  defaultLocale := js "en_US";
  currentLocale := js "en_US";
  fileNameResolver := None;
  ajaxFunction := None;
  validConfiguration := false;
  debugMode := false;
  loads := []
|}.

Definition set_properties (p : option store) (st : state) : state := {|
  properties := p;
  filePath := filePath st;
  fileExtension := fileExtension st;
  defaultLocale := defaultLocale st;
  currentLocale := currentLocale st;
  fileNameResolver := fileNameResolver st;
  ajaxFunction := ajaxFunction st;
  validConfiguration := validConfiguration st;
  debugMode := debugMode st;
  loads := loads st
|}.

Definition set_currentLocale (l : jstring) (st : state) : state := {|
  properties := properties st;
  filePath := filePath st;
  fileExtension := fileExtension st;
  defaultLocale := defaultLocale st;
  currentLocale := l;
  fileNameResolver := fileNameResolver st;
  ajaxFunction := ajaxFunction st;
  validConfiguration := validConfiguration st;
  debugMode := debugMode st;
  loads := loads st
|}.

Definition set_loads (l : list load_closure) (st : state) : state := {|
  properties := properties st;
  filePath := filePath st;
  fileExtension := fileExtension st;
  defaultLocale := defaultLocale st;
  currentLocale := currentLocale st;
  fileNameResolver := fileNameResolver st;
  ajaxFunction := ajaxFunction st;
  validConfiguration := validConfiguration st;
  debugMode := debugMode st;
  loads := l
|}.

(** ** Private functions *)

Definition defaultFileNameResolver (module : jstring) (locale : jsval) : jstring :=
  match locale with
  | JStr l => if truthy locale then module ++ js "_" ++ l else module
  | _ => module
  end.

Definition resolve (r : resolver) (module : jstring) (locale : jsval) : jstring :=
  match r with
  | DefaultFileNameResolver => defaultFileNameResolver module locale
  | CustomResolver f => f module locale
  end.

(** [log(msg, doAlert)], with a console at hand. *)
Definition log (msg : jstring) (doAlert : bool) (st : state) : list event :=
  (if debugMode st then [EConsoleLog (js "messageResource.js : " ++ msg)] else [])
  ++ (if doAlert then [EAlert (js "messageResource.js : " ++ msg)] else []).

(** What the function given to [forEach] in [saveFile] does with one line. *)
Inductive line_result :=
  | Skipped
  | Stored (key value : jstring)
  | InvalidLine (line : jstring).

Definition parse_line (line : jstring) : line_result :=
  let line := trim line in
  if is_empty line || bool_decide (head line = Some 35) then Skipped
  else
    match match_key_value line with
    | Some (k, v) =>
        if negb (is_empty k)
        then Stored (trim k) (if negb (is_empty v) then trim v else [])
        else InvalidLine line
    | None => InvalidLine line
    end.

(** The names every object inherits from [Object.prototype]. A map of the
    embedding holds the own properties of an object; for a name of this
    list a read of the object also finds the inherited member, so the
    properties below that read a module, a locale or a key by name are
    stated for the other names. *)
Definition proto_names : list jstring :=
  [js "__proto__"; js "constructor"; js "hasOwnProperty"; js "isPrototypeOf";
   js "propertyIsEnumerable"; js "toLocaleString"; js "toString"; js "valueOf";
   js "__defineGetter__"; js "__defineSetter__"; js "__lookupGetter__";
   js "__lookupSetter__"].

Definition is_plain (name : jstring) : bool :=
  bool_decide (name ∉ proto_names).

(** [obj[key] = value] for a string value: an own property, except under
    the name [__proto__], whose setter ignores a string. *)
Definition assign (key value : jstring) (m : module_map) : module_map :=
  if bool_decide (key = js "__proto__") then m else <[key := value]> m.

Definition save_line (st : state) (acc : module_map * list event) (line : jstring)
  : module_map * list event :=
  match parse_line line with
  | Skipped => acc
  | Stored k v => (assign k v acc.1, acc.2)
  | InvalidLine l => (acc.1, acc.2 ++ log (js "Invalid line : " ++ l) false st)
  end.

(** [curModuleMap] is the object [properties[locale][module]] itself; the
    lines are the only writers while [forEach] runs, so the map is put
    back once at the end. The objects found or made are plain objects for
    a module and a locale that are not in [proto_names]. *)
Definition saveFile (text : jsval) (module locale : jstring) (st : state)
  : state * list event :=
  let text := to_string text in
  if is_empty text then (st, log (js "Invalid contents.") false st)
  else
    let props := default ∅ (properties st) in
    let localeMap := default ∅ (props !! locale) in
    let curModuleMap := default ∅ (localeMap !! module) in
    let r := foldl (save_line st) (curModuleMap, []) (split 10 text) in
    (set_properties (Some (<[locale := <[module := r.1]> localeMap]> props)) st,
     r.2).

Definition getValidLocale (locale : jsval) (st : state) : jstring :=
  let locale :=
    match locale with
    | JStr l => if truthy locale then l else currentLocale st
    | _ => currentLocale st
    end in
  if contains 45 locale then replace_first 45 95 locale else locale.

(** The two reads are reads of own properties: right for a module and a
    locale that are not in [proto_names]. *)
Definition isModuleLoaded (module locale : jstring) (st : state) : bool :=
  if negb (is_empty module) && negb (is_empty locale) then
    match properties st with
    | Some props =>
        match props !! locale with
        | Some localeMap => bool_decide (is_Some (localeMap !! module))
        | None => false
        end
    | None => false
    end
  else false.

(** ** Public functions *)

(** The configuration object of [init]; [None] is a field left out. *)
Record config := {
  cfg_filePath : option jstring;
  cfg_fileExtension : option jstring;
  cfg_defaultLocale : jsval;
  cfg_fileNameResolver : option resolver;
  cfg_ajaxFunction : option ajax;
  cfg_debugMode : option bool
}.

(** [config || {}] for a call without a configuration object. *)
Definition empty_config : config := {|
  cfg_filePath := None;
  cfg_fileExtension := None;
  cfg_defaultLocale := JUndefined;
  cfg_fileNameResolver := None;
  cfg_ajaxFunction := None;
  cfg_debugMode := None
|}.

(** [v || d] for a string option. *)
Definition or_string (v : option jstring) (d : jstring) : jstring :=
  match v with
  | Some s => if is_empty s then d else s
  | None => d
  end.

Definition init (config : option config) (st : state) : state :=
  let config := default empty_config config in
  let filePath := or_string (cfg_filePath config) [] in
  let filePath :=
    if negb (is_empty filePath) && negb (bool_decide (last filePath = Some 47))
    then filePath ++ js "/" else filePath in
  let fileExtension := or_string (cfg_fileExtension config) DEFAULT_EXTENSION in
  let fileExtension :=
    if negb (bool_decide (head fileExtension = Some 46))
    then js "." ++ fileExtension else fileExtension in
  let locale := getValidLocale (cfg_defaultLocale config) st in
  {| properties := properties st;
     filePath := JStr filePath;
     fileExtension := JStr fileExtension;
     defaultLocale := locale;
     currentLocale := locale;
     fileNameResolver :=
       Some (default DefaultFileNameResolver (cfg_fileNameResolver config));
     ajaxFunction := Some (default AjaxGet (cfg_ajaxFunction config));
     validConfiguration := true;
     debugMode := default false (cfg_debugMode config);
     loads := loads st |}.

Definition setCurrentLocale (locale : jsval) (st : state) : state :=
  match locale with
  | JStr l => if truthy locale then set_currentLocale l st else st
  | _ => st
  end.

(** The first argument of [load]: left out, one name, or an array whose
    elements are names or left out ([None] for [undefined] and [null]). *)
Inductive module_arg :=
  | ModAbsent
  | ModName (name : jstring)
  | ModList (names : list (option jstring)).

(** [module || DEFAULT_MODULE_NAME] *)
Definition valid_module (module : module_arg) : module_arg :=
  match module with
  | ModAbsent => ModName DEFAULT_MODULE_NAME
  | ModName s => if is_empty s then ModName DEFAULT_MODULE_NAME else module
  | ModList _ => module
  end.

(** The loop of lines 279 to 284. *)
Fixpoint collect (names : list (option jstring)) (locale : jstring) (st : state)
  : list jstring :=
  match names with
  | [] => []
  | Some s :: names' =>
      if negb (is_empty s) && negb (isModuleLoaded s locale st)
      then s :: collect names' locale st
      else collect names' locale st
  | None :: names' => collect names' locale st
  end.

Definition modules_to_load (module : module_arg) (locale : jstring) (st : state)
  : list jstring :=
  match valid_module module with
  | ModList names => collect names locale st
  | ModName s => if negb (isModuleLoaded s locale st) then [s] else []
  | ModAbsent => []
  end.

(** [fileLocale] of line 276. *)
Definition file_locale (locale : jsval) (st : state) : jsval :=
  let validLocale := getValidLocale locale st in
  if bool_decide (validLocale = defaultLocale st) then locale
  else JStr validLocale.

(** [properties = properties || {}; properties[l] = properties[l] || {}] *)
Definition ensure_locale (l : jstring) (st : state) : state :=
  let props := default ∅ (properties st) in
  set_properties (Some (<[l := default ∅ (props !! l)]> props)) st.

Definition invoke (site : option nat) (callback : option nat) : list event :=
  match callback with
  | Some cb => [ECallback site cb []]
  | None => []
  end.

Definition load (module : module_arg) (callback : option nat) (locale : jsval)
  (st : state) : state * list event :=
  if negb (validConfiguration st) then
    (st, log (js "Invalid configuration - Invoke init method with proper configuration") true st)
  else
    let validLocale := getValidLocale locale st in
    let fileLocale := file_locale locale st in
    let modulesToLoad := modules_to_load module validLocale st in
    if bool_decide (length modulesToLoad = 0%nat) then (st, invoke None callback)
    else
      let st1 := ensure_locale validLocale st in
      match fileNameResolver st, ajaxFunction st with
      | Some r, Some a =>
          let lid := length (loads st) in
          (set_loads (loads st ++ [{| modulesToLoad := modulesToLoad;
                                      validLocale := validLocale;
                                      callback := callback;
                                      filesLoadedCount := 0 |}]) st1,
           imap (λ idx modName,
                   EFetch a (to_string (filePath st) ++ resolve r modName fileLocale
                             ++ to_string (fileExtension st)) lid idx)
                modulesToLoad)
      | _, _ => (st1, [ETypeError])
      end.

(** The function [load] hands to the fetch function, called with [text] for
    the module at index [idx] of load call [lid]. *)
Definition complete (lid idx : nat) (text : jsval) (st : state)
  : state * list event :=
  match loads st !! lid with
  | Some c =>
      match modulesToLoad c !! idx with
      | Some modName =>
          let r := saveFile text modName (validLocale c) st in
          let count := S (filesLoadedCount c) in
          let c' := {| modulesToLoad := modulesToLoad c;
                       validLocale := validLocale c;
                       callback := callback c;
                       filesLoadedCount := count |} in
          (set_loads (<[lid := c']> (loads r.1)) r.1,
           r.2 ++ if bool_decide (count = length (modulesToLoad c))
                  then invoke (Some lid) (callback c) else [])
      | None => (st, [])
      end
  | None => (st, [])
  end.

(** [moduleObj[key]] is read as an own property: right for a key that is
    not in [proto_names] (for an inherited member the code goes on with a
    value that is no string). *)
Definition get (key : jstring) (module : option jstring) (locale : jsval)
  (defaultValue : option jstring) (st : state) : jstring :=
  let value := or_string defaultValue key in
  let validModule := or_string module DEFAULT_MODULE_NAME in
  let validLocale := getValidLocale locale st in
  let value :=
    if isModuleLoaded validModule validLocale st then
      match properties st with
      | Some props =>
          match props !! validLocale with
          | Some localeMap =>
              match localeMap !! validModule with
              | Some moduleObj => default value (moduleObj !! key)
              | None => value
              end
          | None => value
          end
      | None => value
      end
    else value in
  convertUnicodeString value.

(** ** Runs: calls of the public functions and fetch completions *)

Inductive op :=
  | Init (config : option config)
  | SetCurrentLocale (locale : jsval)
  | Load (module : module_arg) (callback : option nat) (locale : jsval)
  | Get (key : jstring) (module : option jstring) (locale : jsval)
        (defaultValue : option jstring)
  | Complete (lid idx : nat) (text : jsval).

Definition step (o : op) (st : state) : state * list event :=
  match o with
  | Init c => (init c st, [])
  | SetCurrentLocale l => (setCurrentLocale l st, [])
  | Load m cb l => load m cb l st
  | Get _ _ _ _ => (st, [])
  | Complete lid idx text => complete lid idx text st
  end.

Fixpoint run (ops : list op) (st : state) : state * list event :=
  match ops with
  | [] => (st, [])
  | o :: ops' =>
      let r := step o st in
      let r' := run ops' r.1 in
      (r'.1, r.2 ++ r'.2)
  end.

(** Reading the store. *)
Definition entry (locale module : jstring) (st : state) : option module_map :=
  match properties st with
  | Some props =>
      match props !! locale with
      | Some localeMap => localeMap !! module
      | None => None
      end
  | None => None
  end.

Definition stored (locale module key : jstring) (st : state) : option jstring :=
  match entry locale module st with
  | Some m => m !! key
  | None => None
  end.

(** ** Vocabulary of the properties *)

(** The rule in the words of the format: the text before the first equals
    sign and the text after it. *)
Fixpoint break_at_equals (s : jstring) : option (jstring * jstring) :=
  match s with
  | [] => None
  | c :: s' =>
      if c =? 61 then Some ([], s')
      else (λ kv, (c :: kv.1, kv.2)) <$> break_at_equals s'
  end.

(** What a trimmed line stores, in the words of the format. *)
Definition line_rule (t : jstring) : line_result :=
  match t with
  | [] => Skipped
  | c :: _ =>
      if c =? 35 then Skipped
      else match break_at_equals t with
           | Some ([], _) => InvalidLine t
           | Some (k, v) => Stored (trim k) (trim v)
           | None => InvalidLine t
           end
  end.

(** The longest run of characters satisfying [p] at the start of [s], and
    what follows it. *)
Fixpoint span (p : N -> bool) (s : jstring) : jstring * jstring :=
  match s with
  | c :: s' => if p c then (c :: (span p s').1, (span p s').2) else ([], s)
  | [] => ([], [])
  end.

(** What one line does to the map [forEach] fills, the log left aside. *)
Definition store_line (m : module_map) (line : jstring) : module_map :=
  match parse_line line with
  | Stored k v => assign k v m
  | _ => m
  end.

(** The configuration variables, which only [init] and [setCurrentLocale]
    assign. *)
Definition same_config (st st' : state) : Prop :=
  filePath st' = filePath st ∧
  fileExtension st' = fileExtension st ∧
  defaultLocale st' = defaultLocale st ∧
  currentLocale st' = currentLocale st ∧
  fileNameResolver st' = fileNameResolver st ∧
  ajaxFunction st' = ajaxFunction st ∧
  validConfiguration st' = validConfiguration st ∧
  debugMode st' = debugMode st.

(** Well-formed states: the current locale is never the empty string; once
    [init] has run the resolver and the fetch function are assigned; before
    that the store is unassigned and no load is under way. *)
Definition wf (st : state) : Prop :=
  currentLocale st ≠ [] ∧
  (validConfiguration st = true →
   is_Some (fileNameResolver st) ∧ is_Some (ajaxFunction st)) ∧
  (validConfiguration st = false →
   properties st = None ∧ loads st = [] ∧ debugMode st = false).

(** The store after the default module has been loaded from three lines. *)
Definition greeting_state : state :=
  (run [Init None;
        Load ModAbsent (Some 0%nat) JUndefined;
        Complete 0 0 (JStr (js "greeting=Caf\u00e9" ++ [10] ++ js "#comment"
                            ++ [10] ++ js "farewell = Bye "))] initial).1.

(** What [load] alerts before [init]. *)
Definition not_initialized_message : jstring :=
  js "messageResource.js : Invalid configuration - Invoke init method with proper configuration".


(** [grows st st']: every entry of the store of [st] is an entry of the
    store of [st'], with at least the same keys. *)
Definition grows (st st' : state) : Prop :=
  ∀ locale module m, entry locale module st = Some m →
    ∃ m', entry locale module st' = Some m' ∧
          ∀ key, is_Some (m !! key) → is_Some (m' !! key).







(** What the lines of a text store, parsed into an empty map. *)
Definition parse_text (text : jstring) : module_map :=
  foldl store_line ∅ (split 10 text).

(** Every key of the store and every name a load under way will store
    under is a non-empty string. *)
Definition named (st : state) : Prop :=
  (∀ locale module, is_Some (entry locale module st) →
                    locale ≠ [] ∧ module ≠ []) ∧
  Forall (λ c, validLocale c ≠ [] ∧ Forall (λ m, m ≠ []) (modulesToLoad c))
    (loads st).

(** ** The fetch function [ajaxGet] and the fallback of [trim] *)



(** The pattern of the fallback of [trim] has two alternatives: a run of
    white space, at least one character, at the start of the input; and
    such a run followed by the end of the input. Each gives what is left
    after the match. *)
Definition match_leading_white (at_start : bool) (s : jstring) : option jstring :=
  if at_start then
    first_some (λ ar, if is_empty ar.1 then None else Some ar.2)
      (star is_white_space s)
  else None.

Definition match_trailing_white (s : jstring) : option jstring :=
  first_some
    (λ ar, if is_empty ar.1 then None
           else if is_empty ar.2 then Some ar.2 else None)
    (star is_white_space s).

(** [s.replace(pattern, '')] with the global flag, from a position on:
    where the pattern matches the match is left out and the search goes on
    behind it, elsewhere the character is kept. [fuel] bounds the number
    of positions. *)
Fixpoint replace_white (fuel : nat) (at_start : bool) (s : jstring) : jstring :=
  match fuel with
  | O => s
  | S fuel' =>
      match match_leading_white at_start s with
      | Some rest => replace_white fuel' false rest
      | None =>
          match match_trailing_white s with
          | Some rest => replace_white fuel' false rest
          | None =>
              match s with
              | [] => []
              | c :: s' => c :: replace_white fuel' false s'
              end
          end
      end
  end.

(** The fallback the file installs when [String.prototype.trim] is
    missing. *)
Definition trim_fallback (s : jstring) : jstring :=
  replace_white (S (length s)) true s.

(** A string with no white space at its two ends. *)
Definition trimmed (s : jstring) : Prop :=
  (∀ c, head s = Some c → is_white_space c = false) ∧
  (∀ c, last s = Some c → is_white_space c = false).

(** The module names a [load] is called with. *)
Definition module_names (module : module_arg) : list jstring :=
  match module with
  | ModAbsent => []
  | ModName s => [s]
  | ModList names => omap id names
  end.

(** A call that brings no name of [Object.prototype] into the store: a
    [load] whose module names and normalized locale are no such names. *)
Definition plain_op (o : op) (st : state) : bool :=
  match o with
  | Load module _ locale =>
      is_plain (getValidLocale locale st) && forallb is_plain (module_names module)
  | _ => true
  end.

Fixpoint plain_run (ops : list op) (st : state) : bool :=
  match ops with
  | [] => true
  | o :: ops' => plain_op o st && plain_run ops' (step o st).1
  end.

(** * Properties *)

(** ** The line parser *)

Lemma first_some_app {A B} (f : A -> option B) l1 l2 :
  first_some f (l1 ++ l2) =
  match first_some f l1 with Some b => Some b | None => first_some f l2 end.
Proof.
  induction l1 as [|a l1 IH]; simpl; [done|].
  destruct (f a); [done|apply IH].
Qed.

Lemma first_some_fmap {A B C} (f : B -> option C) (g : A -> B) l :
  first_some f (g <$> l) = first_some (λ a, f (g a)) l.
Proof.
  induction l as [|a l IH]; simpl; [done|].
  destruct (f (g a)); [done|apply IH].
Qed.

(** Giving characters back never helps when the continuation refuses every
    rest that starts with a character of the class: only the longest run
    can match. *)
Lemma first_some_star {B} (p : N -> bool) (f : jstring * jstring -> option B) s :
  (∀ a c r, p c = true → f (a, c :: r) = None) →
  first_some f (star p s) = f (span p s).
Proof.
  revert f. induction s as [|c s IH]; intros f Hf; simpl;
    [by destruct (f ([], []))|].
  destruct (p c) eqn:Hp; simpl; [|by destruct (f ([], c :: s))].
  rewrite first_some_app, first_some_fmap. simpl.
  rewrite (IH (λ a, f (c :: a.1, a.2))).
  - destruct (span p s) as [k r]. simpl.
    rewrite (Hf [] c s Hp). by destruct (f (c :: k, r)).
  - intros a c' r Hc'. simpl. by apply Hf.
Qed.

Lemma span_all p s : forallb p s = true → span p s = (s, []).
Proof.
  induction s as [|c s IH]; simpl; [done|].
  intros [Hc Hs]%andb_prop. rewrite Hc, (IH Hs). done.
Qed.

Lemma match_value_dot s : forallb dot s = true → match_value s = Some s.
Proof.
  intros H. unfold match_value. rewrite first_some_star.
  - by rewrite (span_all _ _ H).
  - done.
Qed.

Lemma match_here_span s :
  match_here s =
  match (span not_equals_sign s).2 with
  | c :: r => if c =? 61
              then (λ v, ((span not_equals_sign s).1, v)) <$> match_value r
              else None
  | [] => None
  end.
Proof.
  unfold match_here. rewrite first_some_star; [done|].
  intros a c r Hc. simpl. unfold not_equals_sign in Hc.
  by destruct (c =? 61).
Qed.

Lemma match_here_break s :
  forallb dot s = true →
  match_here s = break_at_equals s.
Proof.
  intros Hdot. rewrite match_here_span.
  induction s as [|c s IH]; [done|].
  apply andb_prop in Hdot as [Hc Hs]. fold (forallb dot s) in Hs.
  cbn [span break_at_equals].
  replace (not_equals_sign c) with (negb (c =? 61)) by done.
  destruct (c =? 61) eqn:Heq; cbn [negb fst snd].
  - by rewrite Heq, (match_value_dot _ Hs).
  - rewrite <- (IH Hs).
    destruct (span not_equals_sign s) as [k r]; cbn [fst snd].
    destruct r as [|c' r]; [done|].
    destruct (c' =? 61); [|done].
    by destruct (match_value r).
Qed.

Lemma break_at_equals_None s :
  break_at_equals s = None → forallb not_equals_sign s = true.
Proof.
  induction s as [|c s IH]; simpl; [done|].
  unfold not_equals_sign at 1. destruct (c =? 61); [done|]. simpl.
  destruct (break_at_equals s); [done|]. intros _. by apply IH.
Qed.

Lemma break_at_equals_tail c s :
  break_at_equals (c :: s) = None → break_at_equals s = None.
Proof.
  simpl. destruct (c =? 61); [done|]. by destruct (break_at_equals s).
Qed.

Lemma match_key_value_unfold s :
  match_key_value s =
  match match_here s with
  | Some r => Some r
  | None => match s with [] => None | _ :: s' => match_key_value s' end
  end.
Proof. by destruct s. Qed.

(** Without an equals sign the pattern matches at no position. *)
Lemma match_key_value_None s :
  break_at_equals s = None → match_key_value s = None.
Proof.
  induction s as [|c s IH]; intros Hb; [done|].
  assert (Hm : match_here (c :: s) = None).
  { rewrite match_here_span.
    by rewrite (span_all _ _ (break_at_equals_None _ Hb)). }
  rewrite match_key_value_unfold, Hm.
  apply IH. by eapply break_at_equals_tail.
Qed.

(** With no line terminator in it, a line is split at its first equals
    sign. *)
Lemma match_key_value_break s :
  forallb dot s = true → match_key_value s = break_at_equals s.
Proof.
  intros Hdot. destruct (break_at_equals s) as [kv|] eqn:Hb.
  - pose proof (match_here_break s Hdot) as Hm. rewrite Hb in Hm.
    by rewrite match_key_value_unfold, Hm.
  - by apply match_key_value_None.
Qed.

Lemma parse_line_rule line :
  forallb dot (trim line) = true →
  parse_line line = line_rule (trim line).
Proof.
  intros Hdot. unfold parse_line, line_rule.
  destruct (trim line) as [|c t] eqn:Ht; [done|].
  simpl is_empty. simpl head. rewrite orb_false_l.
  destruct (c =? 35) eqn:Hc.
  - apply N.eqb_eq in Hc. subst c. by rewrite bool_decide_eq_true_2.
  - rewrite bool_decide_eq_false_2
      by (intros [= ->]; by rewrite N.eqb_refl in Hc).
    rewrite (match_key_value_break _ Hdot).
    destruct (break_at_equals (c :: t)) as [[k v]|]; [|done].
    destruct k as [|k0 k]; [done|]. simpl negb at 1.
    by destruct v.
Qed.

Lemma break_at_equals_app k v :
  61 ∉ k → break_at_equals (k ++ 61 :: v) = Some (k, v).
Proof.
  induction k as [|c k IH]; intros Hk; [done|].
  apply not_elem_of_cons in Hk as [Hc Hk]. simpl.
  destruct (c =? 61) eqn:Heq; [by apply N.eqb_eq in Heq|].
  by rewrite (IH Hk).
Qed.


(** The map [forEach] fills does not depend on what is logged. *)
Lemma foldl_save_line st ls m evs :
  (foldl (save_line st) (m, evs) ls).1 = foldl store_line m ls.
Proof.
  revert m evs. induction ls as [|l ls IH]; intros m evs; [done|].
  simpl. unfold save_line at 2, store_line at 2.
  destruct (parse_line l); simpl; apply IH.
Qed.

Lemma saveFile_entry text module locale st :
  is_empty (to_string text) = false →
  entry locale module (saveFile text module locale st).1 =
  Some (foldl store_line (default ∅ (entry locale module st))
          (split 10 (to_string text))).
Proof.
  intros Hne. unfold saveFile. rewrite Hne. unfold entry. simpl.
  rewrite lookup_insert_eq, lookup_insert_eq, foldl_save_line.
  do 2 f_equal.
  destruct (properties st) as [props|]; simpl; [|done].
  by destruct (props !! locale).
Qed.

Lemma saveFile_empty text module locale st :
  is_empty (to_string text) = true →
  (saveFile text module locale st).1 = st.
Proof. intros He. unfold saveFile. by rewrite He. Qed.






(** ** What every run keeps true *)

Lemma saveFile_same_config text module locale st :
  same_config st (saveFile text module locale st).1.
Proof. unfold saveFile. by destruct (is_empty (to_string text)). Qed.

Lemma saveFile_loads text module locale st :
  loads (saveFile text module locale st).1 = loads st.
Proof. unfold saveFile. by destruct (is_empty (to_string text)). Qed.

Lemma load_same_config module cb locale st :
  same_config st (load module cb locale st).1.
Proof.
  unfold load. destruct (validConfiguration st); simpl; [|done].
  case_bool_decide; [done|].
  by destruct (fileNameResolver st), (ajaxFunction st).
Qed.

Lemma complete_same_config lid idx text st :
  same_config st (complete lid idx text st).1.
Proof.
  unfold complete. destruct (loads st !! lid) as [c|]; [|done].
  destruct (modulesToLoad c !! idx) as [m|]; [|done]. simpl.
  apply (saveFile_same_config text m (validLocale c) st).
Qed.

Lemma replace_first_nonempty a b s : s ≠ [] → replace_first a b s ≠ [].
Proof. destruct s as [|c s]; [done|]. simpl. by destruct (c =? a). Qed.

Lemma getValidLocale_nonempty locale st :
  currentLocale st ≠ [] → getValidLocale locale st ≠ [].
Proof.
  intros Hc. unfold getValidLocale.
  set (l := match locale with
            | JStr l => if truthy locale then l else currentLocale st
            | _ => currentLocale st
            end).
  assert (Hl : l ≠ []).
  { subst l. destruct locale as [| | | |s]; try done. by destruct s. }
  destruct (contains 45 l); [by apply replace_first_nonempty|done].
Qed.

Lemma wf_initial : wf initial.
Proof. by repeat split. Qed.

Lemma wf_init config st : wf st → wf (init config st).
Proof.
  intros (Hc & _ & _). split; [|split].
  - by apply getValidLocale_nonempty.
  - intros _. split; by eexists.
  - done.
Qed.

Lemma wf_step o st : wf st → wf (step o st).1.
Proof.
  intros Hwf. destruct o as [c|l|m cb l|k m l d|lid idx text]; simpl.
  - by apply wf_init.
  - destruct Hwf as (Hc & Hv & Hn).
    destruct l as [| | | |s]; try done. destruct s; done.
  - destruct Hwf as (Hc & Hv & Hn).
    destruct (load_same_config m cb l st) as (_ & _ & _ & E1 & E2 & E3 & E4 & E5).
    split; [by rewrite E1|]. split.
    + rewrite E2, E3, E4. done.
    + rewrite E4. intros Hf. unfold load. rewrite Hf. simpl. by apply Hn.
  - done.
  - destruct Hwf as (Hc & Hv & Hn).
    destruct (complete_same_config lid idx text st)
      as (_ & _ & _ & E1 & E2 & E3 & E4 & E5).
    split; [by rewrite E1|]. split.
    + rewrite E2, E3, E4. done.
    + rewrite E4. intros Hf. destruct (Hn Hf) as (Hp & Hl & Hd).
      unfold complete. rewrite Hl. done.
Qed.



(** ** Lookup *)

Lemma is_empty_false (s : jstring) : s ≠ [] → is_empty s = false.
Proof. by destruct s. Qed.

Lemma or_string_nonempty v d : d ≠ [] → or_string v d ≠ [].
Proof.
  intros Hd. unfold or_string. destruct v as [s|]; [|done].
  by destruct s.
Qed.

Lemma get_stored key module locale defaultValue st :
  currentLocale st ≠ [] →
  get key module locale defaultValue st =
  convertUnicodeString
    (default (or_string defaultValue key)
       (stored (getValidLocale locale st)
          (or_string module DEFAULT_MODULE_NAME) key st)).
Proof.
  intros Hc. unfold get, stored, entry, isModuleLoaded.
  rewrite (is_empty_false (or_string module DEFAULT_MODULE_NAME))
    by (by apply or_string_nonempty).
  rewrite (is_empty_false (getValidLocale locale st))
    by (by apply getValidLocale_nonempty).
  simpl. destruct (properties st) as [props|]; [|done].
  destruct (props !! getValidLocale locale st) as [lm|]; [|done].
  destruct (lm !! or_string module DEFAULT_MODULE_NAME) as [mo|]; [|done].
  rewrite bool_decide_eq_true_2 by (by eexists). done.
Qed.







(** ** Initialization *)

(** C10: [init], at its first call and at any later one, leaves the store
    as it is, entry by entry, and the loads under way as well; it assigns
    the configuration variables and makes the current locale the newly
    configured default locale. *)
Theorem init_keeps_store (config : option config) (st : state) :
  properties (init config st) = properties st ∧
  (∀ locale module, entry locale module (init config st) = entry locale module st) ∧
  (∀ locale module key,
     stored locale module key (init config st) = stored locale module key st) ∧
  loads (init config st) = loads st ∧
  defaultLocale (init config st) =
    getValidLocale (cfg_defaultLocale (default empty_config config)) st ∧
  currentLocale (init config st) = defaultLocale (init config st) ∧
  validConfiguration (init config st) = true.
Proof. by repeat split. Qed.

(** C7, as the code has it: before [init] has run, [load] is reported with
    an alert and given up: the state is what it was, no fetch is issued
    and the callback is not called. [get] has no such check: it looks the
    key up as ever and, the store being unassigned until the first load,
    returns the decoded default value or key. *)
Theorem before_init (st : state) :
  wf st → validConfiguration st = false →
  (∀ module callback locale,
     load module callback locale st = (st, [EAlert not_initialized_message])) ∧
  (∀ key module locale defaultValue,
     get key module locale defaultValue st =
     convertUnicodeString (or_string defaultValue key)).
Proof.
  intros (Hc & _ & Hn) Hv. destruct (Hn Hv) as (Hp & _ & Hd). split.
  - intros module callback locale. unfold load, log. by rewrite Hv, Hd.
  - intros key module locale defaultValue.
    rewrite get_stored by done. unfold stored, entry. by rewrite Hp.
Qed.

Lemma before_init_witness :
  load (ModName (js "Home")) (Some 0%nat) JUndefined initial =
    (initial, [EAlert not_initialized_message]) ∧
  get (js "title") (Some (js "Home")) JUndefined None initial = js "title".
Proof.
  destruct (before_init initial wf_initial eq_refl) as (Hl & Hg).
  split; [apply Hl|apply Hg].
Defined.

(** Before [init], [get] is neither reported nor given up: it returns the
    key, and nothing is logged or alerted. *)
Lemma get_before_init_returns :
  validConfiguration initial = false ∧
  get (js "title") None JUndefined None initial = js "title" ∧
  step (Get (js "title") None JUndefined None) initial = (initial, []).
Proof. by vm_compute. Qed.

(** ** Texts without an equals sign *)










(** ** The store under [saveFile], [load] and fetch completions *)

Lemma saveFile_entry_other text module locale st locale' module' :
  (locale', module') ≠ (locale, module) →
  entry locale' module' (saveFile text module locale st).1 =
  entry locale' module' st.
Proof.
  intros Hne. unfold saveFile.
  destruct (is_empty (to_string text)); [done|].
  unfold entry. simpl.
  destruct (decide (locale' = locale)) as [->|Hl].
  - rewrite lookup_insert_eq.
    rewrite lookup_insert_ne by (intros ->; by apply Hne).
    destruct (properties st) as [props|]; simpl; [|done].
    by destruct (props !! locale).
  - rewrite lookup_insert_ne by done.
    by destruct (properties st).
Qed.

Lemma complete_entry lid idx text st locale module :
  entry locale module (complete lid idx text st).1 =
  match loads st !! lid with
  | Some c =>
      match modulesToLoad c !! idx with
      | Some modName => entry locale module (saveFile text modName (validLocale c) st).1
      | None => entry locale module st
      end
  | None => entry locale module st
  end.
Proof.
  unfold complete. destruct (loads st !! lid) as [c|]; [|done].
  by destruct (modulesToLoad c !! idx).
Qed.

Lemma entry_ensure_locale l st locale module :
  entry locale module (ensure_locale l st) = entry locale module st.
Proof.
  unfold ensure_locale, entry. simpl.
  destruct (decide (locale = l)) as [->|Hl].
  - rewrite lookup_insert_eq.
    destruct (properties st) as [props|]; simpl; [|done].
    by destruct (props !! l).
  - rewrite lookup_insert_ne by done. by destruct (properties st).
Qed.

Lemma load_entry module cb locale st locale' module' :
  entry locale' module' (load module cb locale st).1 = entry locale' module' st.
Proof.
  unfold load. destruct (validConfiguration st); simpl; [|done].
  case_bool_decide; [done|].
  destruct (fileNameResolver st), (ajaxFunction st); simpl;
    apply (entry_ensure_locale _ st).
Qed.

Lemma isModuleLoaded_entry module locale st :
  isModuleLoaded module locale st = true ↔
  module ≠ [] ∧ locale ≠ [] ∧ is_Some (entry locale module st).
Proof.
  unfold isModuleLoaded, entry.
  destruct module as [|a module], locale as [|b locale]; simpl;
    try (split; [done|by intros (? & ? & ?)]).
  destruct (properties st) as [props|];
    [|split; [done|by intros (_ & _ & [? ?])]].
  destruct (props !! (b :: locale)) as [lm|];
    [|split; [done|by intros (_ & _ & [? ?])]].
  rewrite bool_decide_eq_true.
  split; [by intros Hs|by intros (_ & _ & Hs)].
Qed.

(** ** A fetch that ends with a status *)







(** ** Entries are kept *)

Lemma grows_refl st st' :
  (∀ locale module, entry locale module st' = entry locale module st) →
  grows st st'.
Proof. intros H locale module m Hm. exists m. by rewrite H. Qed.

Lemma grows_trans st1 st2 st3 : grows st1 st2 → grows st2 st3 → grows st1 st3.
Proof.
  intros H12 H23 locale module m Hm.
  destruct (H12 _ _ _ Hm) as (m2 & Hm2 & Hk2).
  destruct (H23 _ _ _ Hm2) as (m3 & Hm3 & Hk3).
  exists m3. split; [done|]. intros key Hk. by apply Hk3, Hk2.
Qed.

Lemma foldl_store_line_keys (ls : list jstring) (m : module_map) (key : jstring) :
  is_Some (m !! key) → is_Some (foldl store_line m ls !! key).
Proof.
  revert m. induction ls as [|l ls IH]; intros m Hm; [done|].
  simpl. apply IH. unfold store_line, assign.
  destruct (parse_line l) as [|k v|]; try done.
  case_bool_decide; [done|].
  destruct (decide (k = key)) as [->|Hne].
  - rewrite lookup_insert_eq. by eexists.
  - by rewrite lookup_insert_ne.
Qed.

(** The parse only adds: it creates the entry of its module and locale or
    adds keys to it, and touches no other entry. *)
Lemma saveFile_grows text module locale st :
  grows st (saveFile text module locale st).1.
Proof.
  destruct (is_empty (to_string text)) eqn:He.
  { rewrite saveFile_empty by done. by apply grows_refl. }
  intros locale' module' m Hm.
  destruct (decide ((locale', module') = (locale, module))) as [[= -> ->]|Hne].
  - rewrite saveFile_entry by done. rewrite Hm. simpl.
    eexists. split; [done|]. intros key. apply foldl_store_line_keys.
  - rewrite saveFile_entry_other by done. exists m. by split.
Qed.

Lemma step_grows o st : grows st (step o st).1.
Proof.
  destruct o as [c|l|m cb l|k m l d|lid idx text]; simpl.
  - by apply grows_refl.
  - apply grows_refl. intros locale module.
    destruct l as [| | | |s]; try done. by destruct s.
  - apply grows_refl. intros locale module. apply load_entry.
  - by apply grows_refl.
  - destruct (loads st !! lid) as [c|] eqn:Hc.
    + destruct (modulesToLoad c !! idx) as [modName|] eqn:Hm.
      * eapply grows_trans; [apply (saveFile_grows text modName (validLocale c))|].
        apply grows_refl. intros locale module.
        by rewrite complete_entry, Hc, Hm.
      * apply grows_refl. intros locale module.
        by rewrite complete_entry, Hc, Hm.
    + apply grows_refl. intros locale module. by rewrite complete_entry, Hc.
Qed.

Lemma run_grows ops st : grows st (run ops st).1.
Proof.
  revert st. induction ops as [|o ops IH]; intros st; [by apply grows_refl|].
  simpl. eapply grows_trans; [apply step_grows|apply IH].
Qed.

(** A load of one module that is in the store calls back at once. *)
Lemma load_loaded name cb locale st :
  validConfiguration st = true →
  isModuleLoaded name (getValidLocale locale st) st = true →
  load (ModName name) cb locale st = (st, invoke None cb).
Proof.
  intros Hv Hl. unfold load. rewrite Hv. simpl.
  assert (Hm : modules_to_load (ModName name) (getValidLocale locale st) st = []).
  { unfold modules_to_load, valid_module.
    apply isModuleLoaded_entry in Hl as Hl'. destruct Hl' as (Hn & _).
    rewrite (is_empty_false _ Hn). by rewrite Hl. }
  by rewrite Hm.
Qed.

(** C9: an entry of the store, and a key of an entry, is there for good:
    no sequence of calls of [init], [setCurrentLocale], [load] and [get]
    and of fetch completions removes it, and neither does the parse; a load
    of a module that is in the store for the locale leaves the state, and
    with it the store, as it was. *)
Theorem store_entries_are_kept (ops : list op) (st : state)
    (locale module key : jstring) :
  (is_Some (entry locale module st) →
   is_Some (entry locale module (run ops st).1)) ∧
  (is_Some (stored locale module key st) →
   is_Some (stored locale module key (run ops st).1)) ∧
  (∀ text module' locale',
     (is_Some (entry locale module st) →
      is_Some (entry locale module (saveFile text module' locale' st).1)) ∧
     (is_Some (stored locale module key st) →
      is_Some (stored locale module key (saveFile text module' locale' st).1))) ∧
  (∀ callback locale',
     isModuleLoaded module (getValidLocale locale' st) st = true →
     (load (ModName module) callback locale' st).1 = st).
Proof.
  assert (He : ∀ st', grows st st' →
    is_Some (entry locale module st) → is_Some (entry locale module st')).
  { intros st' Hg [m Hm]. destruct (Hg _ _ _ Hm) as (m' & -> & _). by eexists. }
  assert (Hs : ∀ st', grows st st' →
    is_Some (stored locale module key st) →
    is_Some (stored locale module key st')).
  { intros st' Hg. unfold stored.
    destruct (entry locale module st) as [m|] eqn:Hm; [|by intros [? ?]].
    destruct (Hg _ _ _ Hm) as (m' & -> & Hk). apply Hk. }
  split; [apply He, run_grows|]. split; [apply Hs, run_grows|]. split.
  - intros text module' locale'. split; [apply He|apply Hs];
      apply saveFile_grows.
  - intros callback locale' Hl.
    destruct (validConfiguration st) eqn:Hv.
    + by rewrite load_loaded.
    + unfold load. by rewrite Hv.
Qed.

Lemma store_entries_are_kept_witness :
  is_Some (stored (js "en_US") (js "_default") (js "farewell")
             (run [Init None;
                   SetCurrentLocale (JStr (js "fr"));
                   Load ModAbsent None (JStr (js "en_US"));
                   Get (js "farewell") None JUndefined None;
                   Load (ModName (js "Home")) None JUndefined;
                   Complete 1 0 (JStr (js "farewell="))] greeting_state).1).
Proof.
  apply (store_entries_are_kept _ greeting_state (js "en_US") (js "_default")
           (js "farewell")).
  vm_compute. by eexists.
Defined.

(** ** Loading what is loaded *)

(** What [load] does when something is to be fetched. *)
Lemma load_issues module cb locale st r a :
  validConfiguration st = true →
  fileNameResolver st = Some r →
  ajaxFunction st = Some a →
  modules_to_load module (getValidLocale locale st) st ≠ [] →
  load module cb locale st =
  (set_loads (loads st ++
                [{| modulesToLoad :=
                      modules_to_load module (getValidLocale locale st) st;
                    validLocale := getValidLocale locale st;
                    callback := cb;
                    filesLoadedCount := 0 |}])
     (ensure_locale (getValidLocale locale st) st),
   imap (λ idx modName,
           EFetch a (to_string (filePath st)
                     ++ resolve r modName (file_locale locale st)
                     ++ to_string (fileExtension st)) (length (loads st)) idx)
     (modules_to_load module (getValidLocale locale st) st)).
Proof.
  intros Hv Hr Ha Hm. unfold load. rewrite Hv, Hr, Ha. simpl.
  rewrite bool_decide_eq_false_2; [done|].
  by destruct (modules_to_load module (getValidLocale locale st) st).
Qed.




(** ** The modules of a list *)






(** ** The file locale *)

Lemma file_locale_other locale st :
  getValidLocale locale st ≠ defaultLocale st →
  file_locale locale st = JStr (getValidLocale locale st).
Proof. intros H. unfold file_locale. by rewrite bool_decide_eq_false_2. Qed.

Lemma file_locale_default locale st :
  getValidLocale locale st = defaultLocale st →
  file_locale locale st = locale.
Proof. intros H. unfold file_locale. by rewrite bool_decide_eq_true_2. Qed.

Lemma contains_false a s : a ∉ s → contains a s = false.
Proof.
  induction s as [|c s IH]; intros Hs; [done|].
  apply not_elem_of_cons in Hs as [Hc Hs]. simpl.
  rewrite (IH Hs). by rewrite (proj2 (N.eqb_neq a c)).
Qed.

(** With no locale given, the file locale is the argument as it came, so
    nothing the default resolver appends, exactly when the normalized
    current locale is the default locale. A locale given without a hyphen
    is its own normalized form and is the file locale in every case. *)
Lemma file_locale_without_hyphen l st :
  l ≠ [] → 45 ∉ l →
  getValidLocale (JStr l) st = l ∧ file_locale (JStr l) st = JStr l.
Proof.
  intros Hl Hh.
  assert (Hv : getValidLocale (JStr l) st = l).
  { unfold getValidLocale. simpl. rewrite (is_empty_false _ Hl). simpl.
    by rewrite contains_false. }
  split; [done|]. unfold file_locale. rewrite Hv. by case_bool_decide.
Qed.

(** C2 at the input that breaks it: with default locale [en_US], a load
    with the locale [en-US] stores under the normalized locale [en_US] and
    fetches the file named after the locale as it was passed, [en-US]. *)
Theorem hyphenated_default_locale_file_name :
  let config := {| cfg_filePath := None; cfg_fileExtension := None;
                   cfg_defaultLocale := JStr (js "en_US");
                   cfg_fileNameResolver := None; cfg_ajaxFunction := None;
                   cfg_debugMode := None |} in
  let st := init (Some config) initial in
  let r := load (ModName (js "Home")) None (JStr (js "en-US")) st in
  defaultLocale st = js "en_US" ∧
  getValidLocale (JStr (js "en-US")) st = js "en_US" ∧
  file_locale (JStr (js "en-US")) st = JStr (js "en-US") ∧
  validLocale <$> loads r.1 = [js "en_US"] ∧
  r.2 = [EFetch AjaxGet (js "Home_en-US.properties") 0 0].
Proof. by vm_compute. Qed.

(** ** The completion callback *)














(** * Further properties *)

(** ** The parse merges *)

Lemma foldl_store_line_union (ls : list jstring) (m1 m2 : module_map) :
  foldl store_line (m1 ∪ m2) ls = foldl store_line m1 ls ∪ m2.
Proof.
  revert m1. induction ls as [|l ls IH]; intros m1; [done|]. simpl.
  rewrite <- IH. f_equal. unfold store_line, assign.
  destruct (parse_line l); try done.
  case_bool_decide; [done|]. by rewrite insert_union_l.
Qed.

Lemma foldl_store_line_parse_text (text : jstring) (m : module_map) :
  foldl store_line m (split 10 text) = parse_text text ∪ m.
Proof.
  unfold parse_text. rewrite <- foldl_store_line_union.
  by rewrite (left_id_L ∅ (∪)).
Qed.




Lemma saveFile_state (text : jsval) (module locale : jstring) (st : state) :
  is_empty (to_string text) = false →
  (saveFile text module locale st).1 =
  set_properties
    (Some (<[locale :=
              <[module := parse_text (to_string text)
                          ∪ default ∅ (default ∅ (default ∅ (properties st) !! locale)
                                       !! module)]>
                (default ∅ (default ∅ (properties st) !! locale))]>
             (default ∅ (properties st)))) st.
Proof.
  intros He. unfold saveFile. rewrite He. cbn [fst].
  by rewrite foldl_save_line, foldl_store_line_parse_text.
Qed.

(** X2: parsing the same text twice is parsing it once: a second
    [saveFile] with the text, module and locale of the first leaves the
    state as the first left it. *)
Theorem saveFile_twice (text : jsval) (module locale : jstring) (st : state) :
  (saveFile text module locale (saveFile text module locale st).1).1 =
  (saveFile text module locale st).1.
Proof.
  destruct (is_empty (to_string text)) eqn:He.
  { by rewrite !saveFile_empty. }
  rewrite (saveFile_state text module locale (saveFile _ _ _ st).1 He).
  rewrite (saveFile_state text module locale st He).
  assert (Hd : ∀ (A : Type) (d x : A), default d (Some x) = x) by done.
  unfold set_properties. cbn [properties filePath fileExtension defaultLocale
    currentLocale fileNameResolver ajaxFunction validConfiguration debugMode
    loads].
  rewrite Hd, lookup_insert_eq, Hd, lookup_insert_eq, Hd.
  rewrite (assoc_L (∪)), (idemp_L (∪)).
  by rewrite !insert_insert_eq.
Qed.





(** ** Locales *)

(** X5: [getValidLocale] replaces the first hyphen of a locale by an
    underscore and leaves the rest, later hyphens included, as it is; a
    locale without hyphen is returned unchanged. *)
Theorem getValidLocale_first_hyphen (a b : jstring) (st : state) :
  45 ∉ a →
  getValidLocale (JStr (a ++ 45 :: b)) st = a ++ 95 :: b ∧
  (a ≠ [] → getValidLocale (JStr a) st = a).
Proof.
  intros Ha. split.
  - unfold getValidLocale.
    assert (Hne : truthy (JStr (a ++ 45 :: b)) = true) by (by destruct a).
    rewrite Hne.
    assert (Hc : contains 45 (a ++ 45 :: b) = true).
    { unfold contains. apply existsb_exists. exists 45. split; [|done].
      apply in_or_app. right. by left. }
    rewrite Hc. clear Hne Hc.
    induction a as [|c a IH]; [done|].
    apply not_elem_of_cons in Ha as [Hc Ha]. simpl.
    rewrite (proj2 (N.eqb_neq c 45)) by done. by rewrite IH.
  - intros Hne. by destruct (file_locale_without_hyphen a st Hne Ha).
Qed.

Lemma getValidLocale_first_hyphen_witness :
  getValidLocale (JStr (js "zh-Hans-CN")) initial = js "zh_Hans-CN".
Proof.
  destruct (getValidLocale_first_hyphen (js "zh") (js "Hans-CN") initial)
    as (H & _); [|exact H].
  vm_compute. intros Hin.
  repeat (apply elem_of_cons in Hin as [Hin|Hin]; [done|]).
  by apply elem_of_nil in Hin.
Defined.

(** [get] reads the store and the normalized locale, nothing else. *)
Lemma get_congr key module locale locale' defaultValue st st' :
  properties st' = properties st →
  getValidLocale locale' st' = getValidLocale locale st →
  get key module locale' defaultValue st' = get key module locale defaultValue st.
Proof.
  intros Hp Hl. unfold get, isModuleLoaded. by rewrite Hp, Hl.
Qed.

Lemma getValidLocale_explicit l st st' :
  l ≠ [] → getValidLocale (JStr l) st' = getValidLocale (JStr l) st.
Proof. intros Hl. unfold getValidLocale. by destruct l. Qed.

(** X6: the current locale stands in for a locale left out. After
    [setCurrentLocale] with a non-empty string, [get] without a locale (or
    with one that is no string, or the empty string) returns what [get]
    with that string as locale returned before. *)
Theorem get_after_setCurrentLocale (key : jstring) (module : option jstring)
    (l : jstring) (absent : jsval) (defaultValue : option jstring) (st : state) :
  l ≠ [] →
  truthy absent && is_string absent = false →
  get key module absent defaultValue (setCurrentLocale (JStr l) st) =
  get key module (JStr l) defaultValue st.
Proof.
  intros Hl Habs.
  assert (Hset : setCurrentLocale (JStr l) st = set_currentLocale l st).
  { unfold setCurrentLocale. by destruct l. }
  rewrite Hset. apply get_congr; [done|].
  unfold getValidLocale. cbn [currentLocale set_currentLocale].
  destruct l as [|c l]; [done|]. cbn [truthy is_empty negb].
  destruct absent as [| | | |s]; try done. by destruct s.
Qed.

Lemma get_after_setCurrentLocale_witness :
  get (js "greeting") None JUndefined None
    (setCurrentLocale (JStr (js "en-US"))
       (setCurrentLocale (JStr (js "fr")) greeting_state)) =
  js "Caf" ++ [233].
Proof.
  rewrite (get_after_setCurrentLocale _ _ (js "en-US") JUndefined); by vm_compute.
Defined.

(** X7: a lookup with an explicit locale does not depend on the
    configuration: neither [init] nor [setCurrentLocale] changes what
    [get] returns for a non-empty locale string. *)
Theorem get_explicit_locale_ignores_configuration (key : jstring)
    (module : option jstring) (l : jstring) (defaultValue : option jstring)
    (st : state) :
  l ≠ [] →
  (∀ config, get key module (JStr l) defaultValue (init config st) =
             get key module (JStr l) defaultValue st) ∧
  (∀ locale, get key module (JStr l) defaultValue (setCurrentLocale locale st) =
             get key module (JStr l) defaultValue st).
Proof.
  intros Hl. split.
  - intros config. apply get_congr; [done|by apply getValidLocale_explicit].
  - intros locale. apply get_congr; [|by apply getValidLocale_explicit].
    destruct locale as [| | | |s]; try done. by destruct s.
Qed.

Lemma get_explicit_locale_ignores_configuration_witness :
  get (js "farewell") None (JStr (js "en_US")) None
    (init None (setCurrentLocale (JStr (js "fr")) greeting_state)) = js "Bye".
Proof.
  destruct (get_explicit_locale_ignores_configuration (js "farewell") None
              (js "en_US") None (setCurrentLocale (JStr (js "fr")) greeting_state))
    as (Hi & _); [done|].
  rewrite Hi. by vm_compute.
Defined.

(** X8: a locale written with a hyphen and its normalized form address the
    same entries: when the normalized form holds no further hyphen, [get]
    returns the same for both. *)
Theorem get_hyphen_or_underscore (key : jstring) (module : option jstring)
    (a b : jstring) (defaultValue : option jstring) (st : state) :
  45 ∉ a → 45 ∉ b →
  get key module (JStr (a ++ 45 :: b)) defaultValue st =
  get key module (JStr (a ++ 95 :: b)) defaultValue st.
Proof.
  intros Ha Hb. apply get_congr; [done|].
  destruct (getValidLocale_first_hyphen a b st Ha) as (-> & _).
  assert (H : 45 ∉ a ++ 95 :: b).
  { rewrite elem_of_app, elem_of_cons. intros [?|[?|?]]; done. }
  destruct (file_locale_without_hyphen (a ++ 95 :: b) st) as (-> & _);
    [by destruct a|done|done].
Qed.

Lemma get_hyphen_or_underscore_witness :
  get (js "farewell") None (JStr (js "en-US")) None greeting_state =
  get (js "farewell") None (JStr (js "en_US")) None greeting_state.
Proof.
  apply (get_hyphen_or_underscore _ _ (js "en") (js "US"));
    vm_compute; intros Hin;
    repeat (apply elem_of_cons in Hin as [Hin|Hin]; [done|]);
    by apply elem_of_nil in Hin.
Defined.



(** ** What is logged and alerted *)

Lemma log_events msg doAlert st e :
  e ∈ log msg doAlert st →
  (debugMode st = true ∧ ∃ m, e = EConsoleLog m) ∨
  (doAlert = true ∧ ∃ m, e = EAlert m).
Proof.
  unfold log. intros [He|He]%elem_of_app.
  - destruct (debugMode st); [|by apply elem_of_nil in He].
    apply list_elem_of_singleton in He as ->. left. split; [done|by eexists].
  - destruct doAlert; [|by apply elem_of_nil in He].
    apply list_elem_of_singleton in He as ->. right. split; [done|by eexists].
Qed.

(** [saveFile] only writes to the console, and only in debug mode. *)
Lemma saveFile_events text module locale st e :
  e ∈ (saveFile text module locale st).2 →
  debugMode st = true ∧ ∃ m, e = EConsoleLog m.
Proof.
  unfold saveFile. destruct (is_empty (to_string text)).
  { intros [H|[? _]]%log_events; done. }
  cbn [snd].
  assert (H : ∀ (ls : list jstring) (m : module_map) (evs : list event),
    (∀ e', e' ∈ evs → debugMode st = true ∧ ∃ m', e' = EConsoleLog m') →
    e ∈ (foldl (save_line st) (m, evs) ls).2 →
    debugMode st = true ∧ ∃ m', e = EConsoleLog m').
  { induction ls as [|l ls IH]; intros m evs Hevs; [apply Hevs|].
    simpl. unfold save_line at 2. destruct (parse_line l); cbn [fst snd];
      apply IH; try done.
    intros e' [He'|He']%elem_of_app; [by apply Hevs|].
    apply log_events in He' as [H|[? _]]; done. }
  apply H. intros e' He'. by apply elem_of_nil in He'.
Qed.

Lemma load_events module cb locale st e :
  e ∈ (load module cb locale st).2 →
  (validConfiguration st = false ∧
   ((debugMode st = true ∧ ∃ m, e = EConsoleLog m) ∨ ∃ m, e = EAlert m)) ∨
  (validConfiguration st = true ∧
   ∀ m, e ≠ EConsoleLog m ∧ e ≠ EAlert m).
Proof.
  unfold load. destruct (validConfiguration st); cbn [negb].
  - intros He. right. split; [done|]. intros m.
    case_bool_decide.
    + cbn [snd] in He. destruct cb; simpl in He;
        [|by apply elem_of_nil in He].
      by apply list_elem_of_singleton in He as ->.
    + destruct (fileNameResolver st), (ajaxFunction st); cbn [snd] in He;
        try (by apply list_elem_of_singleton in He as ->).
      apply list_elem_of_lookup in He as [i Hi].
      rewrite list_lookup_imap in Hi.
      destruct (modules_to_load module (getValidLocale locale st) st !! i);
        [|done].
      by injection Hi as <-.
  - cbn [snd]. intros [H|[_ H]]%log_events; left; (split; [done|]);
      [by left|by right].
Qed.

Lemma complete_events lid idx text st e :
  e ∈ (complete lid idx text st).2 →
  (debugMode st = true ∧ ∃ m, e = EConsoleLog m) ∨
  ∀ m, e ≠ EConsoleLog m ∧ e ≠ EAlert m.
Proof.
  unfold complete. destruct (loads st !! lid) as [c|];
    [|intros H; by apply elem_of_nil in H].
  destruct (modulesToLoad c !! idx) as [modName|];
    [|intros H; by apply elem_of_nil in H].
  cbn [snd]. intros [H|H]%elem_of_app.
  - left. by eapply saveFile_events.
  - right. intros m. case_bool_decide; [|by apply elem_of_nil in H].
    destruct (callback c); simpl in H; [|by apply elem_of_nil in H].
    by apply list_elem_of_singleton in H as ->.
Qed.

Lemma elem_of_run_cons o ops st e :
  e ∈ (run (o :: ops) st).2 ↔ e ∈ (step o st).2 ∨ e ∈ (run ops (step o st).1).2.
Proof. cbn [run snd]. apply elem_of_app. Qed.

Lemma step_validConfiguration o st :
  validConfiguration st = true → validConfiguration (step o st).1 = true.
Proof.
  intros Hv. destruct o as [c|l|m cb l|k m l d|lid idx text]; simpl; try done.
  - destruct l as [| | | |s]; try done. by destruct s.
  - destruct (load_same_config m cb l st) as (_&_&_&_&_&_&->&_). done.
  - destruct (complete_same_config lid idx text st) as (_&_&_&_&_&_&->&_). done.
Qed.

(** X10: nothing is alerted once [init] has run. From a state with a valid
    configuration on, whatever is called and whatever the fetches bring,
    no event is an alert: the only alert of the module is the one of a
    [load] before [init]. *)
Theorem no_alert_after_init (ops : list op) (st : state) (msg : jstring) :
  validConfiguration st = true → EAlert msg ∉ (run ops st).2.
Proof.
  revert st. induction ops as [|o ops IH]; intros st Hv.
  { apply not_elem_of_nil. }
  rewrite elem_of_run_cons. intros [H|H].
  - destruct o as [c|l|m cb l|k m l d|lid idx text]; simpl in H;
      try (by apply elem_of_nil in H).
    + apply load_events in H as [[Hf _]|[_ H]]; [congruence|].
      by destruct (H msg).
    + apply complete_events in H as [[_ [m' ?]]|H]; [done|].
      by destruct (H msg).
  - by apply (IH (step o st).1 (step_validConfiguration o st Hv)).
Qed.

Lemma no_alert_after_init_witness :
  EAlert not_initialized_message ∉
    (run [Load ModAbsent None JUndefined;
          Load (ModName (js "Home")) None (JStr (js "fr"));
          Complete 1 0 (JStr []); Complete 1 0 (JNum 500)] greeting_state).2.
Proof. by apply no_alert_after_init. Defined.

Lemma step_debugMode o st :
  debugMode st = false →
  (∀ config, o = Init (Some config) → cfg_debugMode config ≠ Some true) →
  debugMode (step o st).1 = false.
Proof.
  intros Hd Ho. destruct o as [c|l|m cb l|k m l d|lid idx text]; simpl; try done.
  - destruct c as [c|]; [|done]. simpl. specialize (Ho c eq_refl).
    by destruct (cfg_debugMode c) as [[|]|].
  - destruct l as [| | | |s]; try done. by destruct s.
  - destruct (load_same_config m cb l st) as (_&_&_&_&_&_&_&->). done.
  - destruct (complete_same_config lid idx text st) as (_&_&_&_&_&_&_&->). done.
Qed.

(** X11: nothing is written to the console unless debug mode is on. From a
    state with debug mode off, and as long as no [init] turns it on, no
    event is a console log, whatever is loaded and however malformed the
    texts the fetches bring. *)
Theorem no_console_log_without_debug_mode (ops : list op) (st : state)
    (msg : jstring) :
  debugMode st = false →
  (∀ config, Init (Some config) ∈ ops → cfg_debugMode config ≠ Some true) →
  EConsoleLog msg ∉ (run ops st).2.
Proof.
  revert st. induction ops as [|o ops IH]; intros st Hd Hops.
  { apply not_elem_of_nil. }
  rewrite elem_of_run_cons. intros [H|H].
  - destruct o as [c|l|m cb l|k m l d|lid idx text]; simpl in H;
      try (by apply elem_of_nil in H).
    + apply load_events in H as [[_ [[? _]|[? ?]]]|[_ H]]; try congruence.
      by destruct (H msg).
    + apply complete_events in H as [[? _]|H]; [congruence|].
      by destruct (H msg).
  - revert H. apply IH.
    + apply step_debugMode; [done|]. intros config ->. apply Hops. left.
    + intros config Hin. apply Hops. by right.
Qed.

Lemma no_console_log_without_debug_mode_witness :
  EConsoleLog (js "messageResource.js : Invalid line : oops") ∉
    (run [Init None; Load ModAbsent None JUndefined;
          Complete 0 0 (JStr (js "oops"))] initial).2.
Proof.
  apply no_console_log_without_debug_mode; [done|].
  intros config Hin. exfalso.
  repeat (apply elem_of_cons in Hin as [Hin|Hin]; [done|]).
  by apply elem_of_nil in Hin.
Defined.

(** ** Names in the store *)

Lemma collect_nonempty names locale st :
  Forall (λ m, m ≠ []) (collect names locale st).
Proof.
  induction names as [|[s|] names IH]; simpl; [done| |done].
  destruct (is_empty s) eqn:He; simpl; [done|].
  destruct (isModuleLoaded s locale st); simpl; [done|].
  constructor; [by destruct s|done].
Qed.

Lemma modules_to_load_nonempty module locale st :
  Forall (λ m, m ≠ []) (modules_to_load module locale st).
Proof.
  unfold modules_to_load, valid_module.
  destruct module as [|s|names].
  - destruct (isModuleLoaded DEFAULT_MODULE_NAME locale st); simpl; [done|].
    by constructor.
  - destruct (is_empty s) eqn:He.
    + destruct (isModuleLoaded DEFAULT_MODULE_NAME locale st); simpl; [done|].
      by constructor.
    + destruct (isModuleLoaded s locale st); simpl; [done|].
      constructor; [by destruct s|done].
  - apply collect_nonempty.
Qed.

Lemma named_initial : named initial.
Proof. split; [by intros locale module [? ?]|by constructor]. Qed.

Lemma named_step o st : wf st → named st → named (step o st).1.
Proof.
  intros (Hcur & _ & _) (Hkeys & Hloads).
  destruct o as [c|l|m cb l|k m l d|lid idx text]; cbn [step fst].
  - done.
  - destruct l as [| | | |s]; try done. by destruct s.
  - split.
    + intros locale module. rewrite load_entry. apply Hkeys.
    + unfold load. destruct (validConfiguration st); cbn [negb fst]; [|done].
      case_bool_decide; [done|].
      destruct (fileNameResolver st), (ajaxFunction st); cbn [fst loads set_loads];
        try done.
      apply Forall_app. split; [done|]. constructor; [|done]. simpl. split.
      * by apply getValidLocale_nonempty.
      * apply modules_to_load_nonempty.
  - done.
  - unfold complete.
    destruct (loads st !! lid) as [c|] eqn:Hc; [|done].
    destruct (modulesToLoad c !! idx) as [modName|] eqn:Hm; [|done].
    cbn [fst].
    pose proof (Forall_lookup_1 _ _ _ _ Hloads Hc) as (Hvl & Hmods).
    pose proof (Forall_lookup_1 _ _ _ _ Hmods Hm) as Hmod.
    split.
    + intros locale module.
      change (entry locale module (set_loads ?l ?s)) with (entry locale module s).
      destruct (decide ((locale, module) = (validLocale c, modName)))
        as [[= -> ->]|Hne]; [done|].
      rewrite saveFile_entry_other by done. apply Hkeys.
    + cbn [loads set_loads]. rewrite saveFile_loads.
      apply Forall_insert; [done|]. by split.
Qed.

Lemma named_run ops st : wf st → named st → named (run ops st).1.
Proof.
  revert st. induction ops as [|o ops IH]; intros st Hwf Hn; [done|].
  cbn [run fst]. apply IH; [by apply wf_step|by apply named_step].
Qed.

(** X12: in every state a program can reach by calls that bring no name
    of [Object.prototype] into the store, [isModuleLoaded] is exact for a
    module and a locale that are no such names: it answers true exactly
    when the store has an entry for them. No entry ever sits under an empty locale or module
    name, where the test would miss it. *)
Theorem isModuleLoaded_exact (ops : list op) (module locale : jstring) :
  plain_run ops initial = true →
  is_plain module = true →
  is_plain locale = true →
  isModuleLoaded module locale (run ops initial).1 = true ↔
  is_Some (entry locale module (run ops initial).1).
Proof.
  intros _ _ _. rewrite isModuleLoaded_entry. split; [by intros (_ & _ & ?)|].
  intros H.
  destruct (named_run ops initial wf_initial named_initial) as (Hkeys & _).
  destruct (Hkeys locale module H). done.
Qed.

(** ** Loads that fetch nothing *)

(** X13: a list without a name to fetch is no load of the default module.
    With a valid configuration, when every element of the list is left
    out, empty or in the store for the locale (the empty list included),
    [load] leaves the state as it is, issues no fetch and calls the
    callback at once. *)
Theorem load_of_nothing (names : list (option jstring)) (callback : option nat)
    (locale : jsval) (st : state) :
  validConfiguration st = true →
  (∀ name, Some name ∈ names →
           name = [] ∨ isModuleLoaded name (getValidLocale locale st) st = true) →
  load (ModList names) callback locale st = (st, invoke None callback).
Proof.
  intros Hv Hnames. unfold load. rewrite Hv. cbn [negb].
  assert (Hm : modules_to_load (ModList names) (getValidLocale locale st) st = []).
  { unfold modules_to_load, valid_module.
    induction names as [|[s|] names IH]; simpl; [done| |].
    - destruct (Hnames s) as [->|Hl]; [left| |].
      + simpl. apply IH. intros name Hin. apply Hnames. by right.
      + rewrite Hl, andb_false_r. apply IH. intros name Hin.
        apply Hnames. by right.
    - apply IH. intros name Hin. apply Hnames. by right. }
  by rewrite Hm.
Qed.

Lemma load_of_nothing_witness :
  load (ModList [None; Some []; Some (js "_default")]) (Some 3%nat) JUndefined
    greeting_state = (greeting_state, [ECallback None 3 []]) ∧
  load (ModList []) (Some 3%nat) JUndefined greeting_state =
    (greeting_state, [ECallback None 3 []]).
Proof.
  split; apply load_of_nothing; try done.
  - intros name Hin.
    apply elem_of_cons in Hin as [?|Hin]; [done|].
    apply elem_of_cons in Hin as [[= ->]|Hin]; [by left|].
    apply list_elem_of_singleton in Hin as [= ->]. by right.
  - intros name Hin. by apply elem_of_nil in Hin.
Defined.

(** ** Parses of different modules *)

Lemma saveFile_entry_cases text module' locale' st locale module :
  entry locale module (saveFile text module' locale' st).1 =
  if bool_decide ((locale, module) = (locale', module'))
     && negb (is_empty (to_string text))
  then Some (foldl store_line (default ∅ (entry locale module st))
               (split 10 (to_string text)))
  else entry locale module st.
Proof.
  case_bool_decide as Heq; simpl.
  - injection Heq as -> ->. destruct (is_empty (to_string text)) eqn:He; simpl.
    + by rewrite saveFile_empty.
    + by rewrite saveFile_entry.
  - by rewrite saveFile_entry_other.
Qed.



(** ** From the file to the lookup *)



(** ** The configured path and extension *)

Lemma path_with_slash (q : jstring) :
  let p := if negb (is_empty q) && negb (bool_decide (last q = Some 47))
           then q ++ js "/" else q in
  (p = [] ∨ last p = Some 47) ∧
  (q = [] ∨ last q = Some 47 → p = q) ∧
  (q ≠ [] → last q ≠ Some 47 → p = q ++ js "/").
Proof.
  destruct q as [|c q]; cbn [is_empty negb andb].
  { split; [by left|]. split; [done|]. by intros H. }
  case_bool_decide as Hlast; cbn [negb].
  - split; [by right|]. split; [done|]. by intros _ H.
  - split; [right; apply (last_snoc 47)|]. split; [|done].
    by intros [?|?].
Qed.

Lemma extension_with_dot (x : jstring) :
  let e := if negb (bool_decide (head x = Some 46)) then js "." ++ x else x in
  head e = Some 46 ∧
  (head x = Some 46 → e = x) ∧
  (head x ≠ Some 46 → e = js "." ++ x).
Proof.
  case_bool_decide as Hhead; cbn [negb].
  - split; [done|]. split; [done|]. by intros H.
  - split; [done|]. split; [by intros H|done].
Qed.

(** X16: [init] only adds what is missing. The configured path is the
    given path, with a slash appended unless the path is empty or ends
    with one, so it is empty or ends with a slash; the configured extension
    is the given extension ([.properties] when none or the empty string is
    given), with a dot put in front unless it starts with one, so it
    starts with a dot. *)
Theorem init_normalizes_path_and_extension (config : option config) (st : state) :
  let given_path := or_string (cfg_filePath (default empty_config config)) [] in
  let given_extension :=
    or_string (cfg_fileExtension (default empty_config config)) DEFAULT_EXTENSION in
  ∃ path extension,
    filePath (init config st) = JStr path ∧
    fileExtension (init config st) = JStr extension ∧
    ((path = [] ∨ last path = Some 47) ∧
     (given_path = [] ∨ last given_path = Some 47 → path = given_path) ∧
     (given_path ≠ [] → last given_path ≠ Some 47 →
      path = given_path ++ js "/")) ∧
    (head extension = Some 46 ∧
     (head given_extension = Some 46 → extension = given_extension) ∧
     (head given_extension ≠ Some 46 → extension = js "." ++ given_extension)).
Proof.
  intros given_path given_extension. eexists _, _.
  split; [reflexivity|]. split; [reflexivity|]. split.
  - apply (path_with_slash given_path).
  - apply (extension_with_dot given_extension).
Qed.

(** ** File names *)

Lemma load_congr module cb locale locale' st :
  getValidLocale locale' st = getValidLocale locale st →
  file_locale locale' st = file_locale locale st →
  load module cb locale' st = load module cb locale st.
Proof. intros Hv Hf. unfold load. by rewrite Hv, Hf. Qed.

(** X17: for a locale other than the default one, the hyphen does not
    matter to [load]: a locale with one hyphen and the same locale with
    an underscore give the same fetches, for the same file names, and the
    same state. *)
Theorem load_hyphen_or_underscore (module : module_arg) (callback : option nat)
    (a b : jstring) (st : state) :
  45 ∉ a → 45 ∉ b →
  a ++ 95 :: b ≠ defaultLocale st →
  load module callback (JStr (a ++ 45 :: b)) st =
  load module callback (JStr (a ++ 95 :: b)) st.
Proof.
  intros Ha Hb Hd.
  destruct (getValidLocale_first_hyphen a b st Ha) as (Hv & _).
  assert (H : 45 ∉ a ++ 95 :: b).
  { rewrite elem_of_app, elem_of_cons. intros [?|[?|?]]; done. }
  destruct (file_locale_without_hyphen (a ++ 95 :: b) st) as (Hv' & Hf');
    [by destruct a|done|].
  apply load_congr; [by rewrite Hv, Hv'|].
  rewrite Hf'. rewrite file_locale_other by (by rewrite Hv). by rewrite Hv.
Qed.

Lemma load_hyphen_or_underscore_witness :
  load (ModName (js "Home")) None (JStr (js "fr-FR")) greeting_state =
  load (ModName (js "Home")) None (JStr (js "fr_FR")) greeting_state.
Proof.
  apply (load_hyphen_or_underscore _ _ (js "fr") (js "FR")); [| |by vm_compute];
    vm_compute; intros Hin;
    repeat (apply elem_of_cons in Hin as [Hin|Hin]; [done|]);
    by apply elem_of_nil in Hin.
Defined.

(** X18: the file names of the default resolver, as the comment of [load]
    lists them. With a valid configuration and the default resolver, a
    load that has one module to fetch requests the configured path, the
    file name and the configured extension, where the file name is the
    module name alone when no locale is given and the current locale
    normalizes to the default locale; the module name, an underscore and
    the normalized current locale when no locale is given and the current
    locale is another one; and the module name, an underscore and the
    locale when a non-empty locale without hyphen is given. *)
Theorem default_file_names (module : module_arg) (callback : option nat)
    (locale : jsval) (st : state) (a : ajax) (name : jstring) :
  currentLocale st ≠ [] →
  validConfiguration st = true →
  fileNameResolver st = Some DefaultFileNameResolver →
  ajaxFunction st = Some a →
  modules_to_load module (getValidLocale locale st) st = [name] →
  let request file :=
    [EFetch a (to_string (filePath st) ++ file ++ to_string (fileExtension st))
       (length (loads st)) 0] in
  (truthy locale && is_string locale = false →
   getValidLocale locale st = defaultLocale st →
   (load module callback locale st).2 = request name) ∧
  (truthy locale && is_string locale = false →
   getValidLocale locale st ≠ defaultLocale st →
   (load module callback locale st).2 =
   request (name ++ js "_" ++ getValidLocale locale st)) ∧
  (∀ l, locale = JStr l → l ≠ [] → 45 ∉ l →
        (load module callback locale st).2 = request (name ++ js "_" ++ l)).
Proof.
  intros Hcur Hv Hr Ha Hm request.
  assert (Hload : (load module callback locale st).2 =
    request (defaultFileNameResolver name (file_locale locale st))).
  { rewrite (load_issues _ _ _ _ _ a Hv Hr Ha) by (by rewrite Hm).
    by rewrite Hm. }
  rewrite Hload. split; [|split].
  - intros Habs Hd. rewrite file_locale_default by done.
    destruct locale as [| | | |s]; try done. by destruct s.
  - intros Habs Hd. rewrite file_locale_other by done.
    unfold defaultFileNameResolver.
    assert (Hne : getValidLocale locale st ≠ [])
      by (by apply getValidLocale_nonempty).
    cbn [truthy]. by rewrite (is_empty_false _ Hne).
  - intros l -> Hl Hh.
    destruct (file_locale_without_hyphen l st Hl Hh) as (_ & ->).
    unfold defaultFileNameResolver. simpl. by rewrite (is_empty_false _ Hl).
Qed.

Lemma default_file_names_witness :
  (load ModAbsent None JUndefined (init None initial)).2 =
    [EFetch AjaxGet (js "_default.properties") 0 0] ∧
  (load (ModName (js "HomePage")) None JUndefined
     (setCurrentLocale (JStr (js "fr-FR")) (init None initial))).2 =
    [EFetch AjaxGet (js "HomePage_fr_FR.properties") 0 0] ∧
  (load (ModName (js "HomePage")) None (JStr (js "en_US")) (init None initial)).2 =
    [EFetch AjaxGet (js "HomePage_en_US.properties") 0 0].
Proof.
  assert (Hi : currentLocale (init None initial) ≠ []) by done.
  assert (Hs : currentLocale (setCurrentLocale (JStr (js "fr-FR"))
                                (init None initial)) ≠ []) by done.
  split; [|split].
  - pose proof (default_file_names ModAbsent None JUndefined (init None initial)
                  AjaxGet (js "_default") Hi eq_refl eq_refl eq_refl eq_refl)
      as (H & _).
    by apply H.
  - pose proof (default_file_names (ModName (js "HomePage")) None JUndefined
                  (setCurrentLocale (JStr (js "fr-FR")) (init None initial))
                  AjaxGet (js "HomePage") Hs eq_refl eq_refl eq_refl eq_refl)
      as (_ & H & _).
    by apply H.
  - pose proof (default_file_names (ModName (js "HomePage")) None
                  (JStr (js "en_US")) (init None initial)
                  AjaxGet (js "HomePage") Hi eq_refl eq_refl eq_refl eq_refl)
      as (_ & _ & H).
    apply (H (js "en_US")); [done|done|].
    vm_compute. intros Hin.
    repeat (apply elem_of_cons in Hin as [Hin|Hin]; [done|]).
    by apply elem_of_nil in Hin.
Defined.

(** ** Decoding *)

Lemma hex_digit_bound c v : hex_digit c = Some v → v < 16.
Proof.
  unfold hex_digit.
  destruct ((48 <=? c) && (c <=? 57)) eqn:H1.
  { apply andb_prop in H1 as [?%N.leb_le ?%N.leb_le]. intros [= <-]. lia. }
  destruct ((65 <=? c) && (c <=? 70)) eqn:H2.
  { apply andb_prop in H2 as [?%N.leb_le ?%N.leb_le]. intros [= <-]. lia. }
  destruct ((97 <=? c) && (c <=? 102)) eqn:H3; [|done].
  apply andb_prop in H3 as [?%N.leb_le ?%N.leb_le]. intros [= <-]. lia.
Qed.

Lemma hex4_bound a b c d code : hex4 a b c d = Some code → code < 65536.
Proof.
  unfold hex4.
  destruct (hex_digit a) as [x|] eqn:Ha; [|done].
  destruct (hex_digit b) as [y|] eqn:Hb; [|done].
  destruct (hex_digit c) as [z|] eqn:Hc; [|done].
  destruct (hex_digit d) as [w|] eqn:Hd; [|done].
  apply hex_digit_bound in Ha, Hb, Hc, Hd. intros [= <-]. lia.
Qed.

Lemma convertUnicodeString_bounds (n : nat) (s : jstring) :
  (length s ≤ n)%nat →
  (length (convertUnicodeString s) ≤ length s)%nat ∧
  (Forall (λ c, c < 65536) s → Forall (λ c, c < 65536) (convertUnicodeString s)).
Proof.
  revert s. induction n as [|n IH]; intros s Hn.
  { destruct s; [done|simpl in Hn; lia]. }
  destruct s as [|c rest]; [done|].
  assert (Hrest : (length rest ≤ n)%nat) by (simpl in Hn; lia).
  destruct (IH rest Hrest) as (Hlen & Hall).
  assert (Hkeep : (length (c :: convertUnicodeString rest) ≤ length (c :: rest))%nat ∧
    (Forall (λ c, c < 65536) (c :: rest) →
     Forall (λ c, c < 65536) (c :: convertUnicodeString rest))).
  { split; [simpl; lia|]. intros [Hc Hr]%Forall_cons. constructor; [done|auto]. }
  destruct rest as [|u [|a [|b [|c' [|d rest']]]]]; try exact Hkeep.
  change (convertUnicodeString (c :: u :: a :: b :: c' :: d :: rest')) with
    (if (c =? 92) && (u =? 117) then
       match hex4 a b c' d with
       | Some code => code :: convertUnicodeString rest'
       | None => c :: convertUnicodeString (u :: a :: b :: c' :: d :: rest')
       end
     else c :: convertUnicodeString (u :: a :: b :: c' :: d :: rest')).
  destruct ((c =? 92) && (u =? 117)); [|exact Hkeep].
  destruct (hex4 a b c' d) as [code|] eqn:Hhex; [|exact Hkeep].
  destruct (IH rest') as (Hlen' & Hall'); [simpl in Hrest; lia|].
  split; [simpl; lia|].
  intros Hs. constructor; [by eapply hex4_bound|].
  apply Hall'. by do 6 apply Forall_cons in Hs as [_ Hs].
Qed.

(** X19: decoding keeps a text a text and never makes it longer: the
    result of [convertUnicodeString] is at most as long as its argument,
    and when every character of the argument is a 16-bit code unit, so is
    every character of the result. *)
Theorem convertUnicodeString_shrinks (s : jstring) :
  (length (convertUnicodeString s) ≤ length s)%nat ∧
  (Forall (λ c, c < 65536) s → Forall (λ c, c < 65536) (convertUnicodeString s)).
Proof. by apply (convertUnicodeString_bounds (length s)). Qed.

(** ** Completions and the configuration *)

(** X20: a fetch completes into the locale it was issued for. Calling
    [init] or [setCurrentLocale] between a [load] and the completion of its
    fetch does not change what the completion stores: every entry of the
    store is afterwards as it would be without the call. *)
Theorem complete_ignores_configuration (lid idx : nat) (text : jsval)
    (st : state) (locale module : jstring) :
  (∀ config,
     entry locale module (complete lid idx text (init config st)).1 =
     entry locale module (complete lid idx text st).1) ∧
  (∀ l,
     entry locale module (complete lid idx text (setCurrentLocale l st)).1 =
     entry locale module (complete lid idx text st).1).
Proof.
  assert (H : ∀ st', loads st' = loads st →
    (∀ l m, entry l m st' = entry l m st) →
    entry locale module (complete lid idx text st').1 =
    entry locale module (complete lid idx text st).1).
  { intros st' Hloads Hentry. rewrite !complete_entry, Hloads.
    destruct (loads st !! lid) as [c|]; [|apply Hentry].
    destruct (modulesToLoad c !! idx) as [modName|]; [|apply Hentry].
    rewrite !saveFile_entry_cases. by rewrite Hentry. }
  split.
  - intros config. by apply H.
  - intros l. apply H; destruct l as [| | | |s]; try done; by destruct s.
Qed.

(** ** The built-in fetch function *)



(** ** The fallback of [trim] *)

Lemma star_first p s : ∃ tl, star p s = span p s :: tl.
Proof.
  induction s as [|c s [tl IH]]; simpl; [by eexists|].
  destruct (p c); [|by eexists].
  rewrite IH. simpl. destruct (span p s). by eexists.
Qed.

Lemma star_no_run p s : (span p s).1 = [] → star p s = [([], s)].
Proof. destruct s as [|c s]; simpl; [done|]. by destruct (p c). Qed.

Lemma span_drop_white s : (span is_white_space s).2 = drop_white s.
Proof.
  induction s as [|c s IH]; simpl; [done|].
  by destruct (is_white_space c).
Qed.

Lemma span_run_empty s :
  is_empty (span is_white_space s).1 =
  match s with c :: _ => negb (is_white_space c) | [] => true end.
Proof. destruct s as [|c s]; simpl; [done|]. by destruct (is_white_space c). Qed.

Lemma match_leading_white_start s :
  match_leading_white true s =
  match s with
  | c :: _ => if is_white_space c then Some (drop_white s) else None
  | [] => None
  end.
Proof.
  unfold match_leading_white.
  destruct (is_empty (span is_white_space s).1) eqn:He.
  - rewrite star_no_run by (by destruct (span is_white_space s).1).
    rewrite span_run_empty in He. simpl.
    destruct s as [|c s]; [done|]. by destruct (is_white_space c).
  - destruct (star_first is_white_space s) as [tl ->]. simpl. rewrite He.
    rewrite span_drop_white. rewrite span_run_empty in He.
    destruct s as [|c s]; [done|]. by destruct (is_white_space c).
Qed.

Lemma span_rest_empty p s : is_empty (span p s).2 = forallb p s.
Proof.
  induction s as [|c s IH]; simpl; [done|]. by destruct (p c).
Qed.

Lemma match_trailing_white_all s :
  match_trailing_white s =
  if negb (is_empty s) && forallb is_white_space s then Some [] else None.
Proof.
  unfold match_trailing_white. rewrite first_some_star.
  - rewrite span_run_empty.
    pose proof (span_rest_empty is_white_space s) as Hrest.
    destruct s as [|c s]; [done|]. cbn [is_empty negb andb].
    destruct (is_white_space c) eqn:Hc; cbn [negb].
    + rewrite <- Hrest. by destruct (span is_white_space (c :: s)).2.
    + simpl. by rewrite Hc.
  - intros a c r _. simpl. by destruct (is_empty a).
Qed.

Lemma forallb_white_reverse s :
  forallb is_white_space (reverse s) = forallb is_white_space s.
Proof.
  induction s as [|c s IH]; [done|].
  rewrite reverse_cons, forallb_app, IH. simpl.
  rewrite andb_true_r. apply andb_comm.
Qed.

Lemma drop_white_all s : forallb is_white_space s = true → drop_white s = [].
Proof.
  induction s as [|c s IH]; simpl; [done|].
  destruct (is_white_space c); [apply IH|done].
Qed.

Lemma drop_white_app xs ys :
  drop_white (xs ++ ys) =
  if forallb is_white_space xs then drop_white ys else drop_white xs ++ ys.
Proof.
  induction xs as [|c xs IH]; simpl; [done|].
  by destruct (is_white_space c).
Qed.

(** Trimming at the right end, one character further to the left. *)
Lemma right_trim_cons c s :
  reverse (drop_white (reverse (c :: s))) =
  if forallb is_white_space (c :: s) then []
  else c :: reverse (drop_white (reverse s)).
Proof.
  rewrite reverse_cons, drop_white_app, forallb_white_reverse.
  cbn [forallb].
  destruct (forallb is_white_space s) eqn:Hs.
  - rewrite (drop_white_all (reverse s)) by (by rewrite forallb_white_reverse).
    simpl. destruct (is_white_space c); done.
  - rewrite andb_false_r. by rewrite reverse_app.
Qed.

Lemma replace_white_right_trim (fuel : nat) (s : jstring) :
  (length s < fuel)%nat →
  replace_white fuel false s = reverse (drop_white (reverse s)).
Proof.
  revert s. induction fuel as [|fuel IH]; intros s Hlen; [lia|].
  cbn [replace_white match_leading_white].
  rewrite match_trailing_white_all.
  destruct s as [|c s]; [done|]. cbn [is_empty negb andb].
  rewrite right_trim_cons.
  destruct (forallb is_white_space (c :: s)).
  - by destruct fuel.
  - rewrite IH by (simpl in Hlen; lia). done.
Qed.

Lemma length_drop_white s : (length (drop_white s) ≤ length s)%nat.
Proof.
  induction s as [|c s IH]; simpl; [done|].
  destruct (is_white_space c); simpl; lia.
Qed.

(** X22: the fallback installed when [String.prototype.trim] is missing
    trims as the built-in function does: for every string, replacing the
    matches of its pattern by nothing gives the string without the white
    space at its two ends. *)
Theorem trim_fallback_trims (s : jstring) : trim_fallback s = trim s.
Proof.
  unfold trim_fallback, trim. cbn [replace_white].
  rewrite match_leading_white_start.
  destruct s as [|c s]; [done|].
  destruct (is_white_space c) eqn:Hc.
  - apply replace_white_right_trim. cbn [drop_white length]. rewrite Hc.
    pose proof (length_drop_white s). lia.
  - rewrite match_trailing_white_all.
    cbn [is_empty negb andb forallb drop_white]. rewrite Hc. cbn [andb].
    rewrite replace_white_right_trim by (cbn [length]; lia).
    rewrite right_trim_cons. cbn [forallb]. by rewrite Hc.
Qed.

(** ** Stored keys and values are trimmed *)

Lemma head_drop_white s c :
  head (drop_white s) = Some c → is_white_space c = false.
Proof.
  induction s as [|x s IH]; simpl; [done|].
  destruct (is_white_space x) eqn:Hx; [done|]. by intros [= <-].
Qed.

Lemma last_drop_white s :
  drop_white s ≠ [] → last (drop_white s) = last s.
Proof.
  induction s as [|x s IH]; simpl; [done|].
  destruct (is_white_space x); [|done].
  intros Hne. rewrite (IH Hne).
  destruct s as [|y s]; [done|]. by rewrite last_cons_cons.
Qed.

Lemma trim_trimmed s : trimmed (trim s).
Proof.
  unfold trim. split; intros c.
  - rewrite head_reverse. intros Hl.
    assert (Hne : drop_white (reverse (drop_white s)) ≠ []).
    { intros E. by rewrite E in Hl. }
    rewrite last_drop_white in Hl by done.
    rewrite last_reverse in Hl. by eapply head_drop_white.
  - rewrite last_reverse. apply head_drop_white.
Qed.

Lemma trimmed_nil : trimmed [].
Proof. by split. Qed.

Lemma parse_line_trimmed line key value :
  parse_line line = Stored key value → trimmed key ∧ trimmed value.
Proof.
  unfold parse_line.
  destruct (is_empty (trim line) || bool_decide (head (trim line) = Some 35));
    [done|].
  destruct (match_key_value (trim line)) as [[k v]|]; [|done].
  destruct (negb (is_empty k)); [|done].
  intros [= <- <-]. split; [apply trim_trimmed|].
  destruct (negb (is_empty v)); [apply trim_trimmed|apply trimmed_nil].
Qed.

Lemma foldl_store_line_trimmed (ls : list jstring) (m : module_map) :
  (∀ k v, m !! k = Some v → trimmed k ∧ trimmed v) →
  ∀ k v, foldl store_line m ls !! k = Some v → trimmed k ∧ trimmed v.
Proof.
  revert m. induction ls as [|l ls IH]; intros m Hm; [done|]. simpl.
  apply IH. unfold store_line, assign.
  destruct (parse_line l) as [|k' v'|] eqn:Hp; try done.
  case_bool_decide; [done|].
  intros k v. destruct (decide (k' = k)) as [->|Hne].
  - rewrite lookup_insert_eq. intros [= <-]. by eapply parse_line_trimmed.
  - rewrite lookup_insert_ne by done. apply Hm.
Qed.

Lemma saveFile_trimmed text module locale st :
  (∀ l m k v, stored l m k st = Some v → trimmed k ∧ trimmed v) →
  ∀ l m k v, stored l m k (saveFile text module locale st).1 = Some v →
             trimmed k ∧ trimmed v.
Proof.
  intros Hst l m k v. unfold stored at 1. rewrite saveFile_entry_cases.
  destruct (bool_decide ((l, m) = (locale, module))
            && negb (is_empty (to_string text))); [|apply Hst].
  apply foldl_store_line_trimmed. intros k' v' Hk'.
  apply (Hst l m). unfold stored.
  destruct (entry l m st); [done|]. cbn in Hk'. by rewrite lookup_empty in Hk'.
Qed.

Lemma step_trimmed o st :
  (∀ l m k v, stored l m k st = Some v → trimmed k ∧ trimmed v) →
  ∀ l m k v, stored l m k (step o st).1 = Some v → trimmed k ∧ trimmed v.
Proof.
  intros Hst l m k v.
  destruct o as [c|loc|md cb loc|key md loc d|lid idx text]; cbn [step fst].
  - apply Hst.
  - destruct loc as [| | | |s]; try apply Hst. destruct s; apply Hst.
  - unfold stored. rewrite load_entry. apply Hst.
  - apply Hst.
  - unfold stored at 1. rewrite complete_entry.
    destruct (loads st !! lid) as [c|]; [|apply Hst].
    destruct (modulesToLoad c !! idx) as [modName|]; [|apply Hst].
    by apply saveFile_trimmed.
Qed.

Lemma run_store_trimmed ops st :
  (∀ l m k v, stored l m k st = Some v → trimmed k ∧ trimmed v) →
  ∀ l m k v, stored l m k (run ops st).1 = Some v → trimmed k ∧ trimmed v.
Proof.
  revert st. induction ops as [|o ops IH]; intros st Hst; [done|].
  cbn [run fst]. apply IH. by apply step_trimmed.
Qed.

Lemma reachable_store_trimmed ops l m k v :
  stored l m k (run ops initial).1 = Some v → trimmed k ∧ trimmed v.
Proof. apply run_store_trimmed. intros l' m' k' v'. done. Qed.

(** X23: the store holds trimmed texts only. In every state a program can
    reach, no stored key and no stored value starts or ends with white
    space. *)
Theorem stored_texts_are_trimmed (ops : list op)
    (locale module key value : jstring) :
  stored locale module key (run ops initial).1 = Some value →
  trimmed key ∧ trimmed value.
Proof. apply reachable_store_trimmed. Qed.

Lemma stored_texts_are_trimmed_witness :
  trimmed (js "farewell") ∧ trimmed (js "Bye").
Proof.
  apply (stored_texts_are_trimmed
           [Init None; Load ModAbsent (Some 0%nat) JUndefined;
            Complete 0 0 (JStr (js "greeting=Hello" ++ [10] ++ js "#comment"
                                ++ [10] ++ js "farewell = Bye "))]
           (js "en_US") (js "_default")).
  by vm_compute.
Defined.



(** ** Instances *)


Lemma isModuleLoaded_exact_witness :
  isModuleLoaded (js "_default") (js "en_US") greeting_state = true.
Proof.
  apply (isModuleLoaded_exact
           [Init None; Load ModAbsent (Some 0%nat) JUndefined;
            Complete 0 0 (JStr (js "greeting=Caf\u00e9" ++ [10] ++ js "#comment"
                                ++ [10] ++ js "farewell = Bye "))]);
    [done|done|done|].
  vm_compute. by eexists.
Defined.

Lemma init_normalizes_path_and_extension_witness :
  ∃ path extension,
    filePath (init (Some {| cfg_filePath := Some (js "i18n");
                            cfg_fileExtension := Some (js "txt");
                            cfg_defaultLocale := JUndefined;
                            cfg_fileNameResolver := None;
                            cfg_ajaxFunction := None;
                            cfg_debugMode := None |}) initial) = JStr path ∧
    path = js "i18n/" ∧ extension = js ".txt".
Proof.
  destruct (init_normalizes_path_and_extension
              (Some {| cfg_filePath := Some (js "i18n");
                       cfg_fileExtension := Some (js "txt");
                       cfg_defaultLocale := JUndefined;
                       cfg_fileNameResolver := None;
                       cfg_ajaxFunction := None;
                       cfg_debugMode := None |}) initial)
    as (path & extension & Hp & _ & (_ & _ & Hslash) & (_ & _ & Hdot)).
  exists path, extension. split; [exact Hp|]. split.
  - apply Hslash; by vm_compute.
  - apply Hdot. by vm_compute.
Defined.

Lemma convertUnicodeString_shrinks_witness :
  Forall (λ c, c < 65536) (convertUnicodeString (js "Caf\u00e9")).
Proof.
  apply (convertUnicodeString_shrinks (js "Caf\u00e9")).
  vm_compute. repeat constructor.
Defined.
